(** * tracedown: the bounded trace store and the span-tree reconstruction

    A shallow embedding of [storage.go] (the in-memory store of received
    trace batches with its byte, count and age limits) and of the grouping,
    ordering and tree-building code of [markdown.go], followed by the
    properties of both.

    Conventions.
    - Go's [int], [int64] and [uint64] are integers of [Z]; every addition,
      subtraction and multiplication of the source is followed by the
      wrap-around of its type ([wrapInt], [wrap64]).  [len] of a slice is
      exact.
    - [time.Time] is a number of nanoseconds, [time.Duration] likewise;
      [time.Now()] is an argument of the operations that read the clock.
    - Trace and span identifiers are the strings returned by their
      [String()] method; the empty identifier is the empty string.
    - A Go [map] with string keys is a [gmap string]; the order in which
      [range] visits it is not fixed by the language and is supplied by the
      [Runtime], as is the algorithm of [sort.Slice]. *)

From Stdlib Require Import ZArith List Lia Bool String Permutation Sorted.
From stdpp Require Import base option list gmap strings fin_maps sorting.
Import ListNotations.
Open Scope Z_scope.

(** ** Machine integers *)

Module GoInt.

Definition maxInt64 : Z := 2 ^ 63 - 1.
Definition minInt64 : Z := - 2 ^ 63.

(** Two's complement wrap-around of a signed 64-bit integer. *)
Definition wrap64 (z : Z) : Z := (z + 2 ^ 63) mod 2 ^ 64 - 2 ^ 63.

(** [int] is 64 bits wide on the platforms the program is built for. *)
Definition wrapInt (z : Z) : Z := wrap64 z.

Definition inInt64 (z : Z) : Prop := minInt64 <= z <= maxInt64.

Definition add64 (a b : Z) : Z := wrap64 (a + b).
Definition sub64 (a b : Z) : Z := wrap64 (a - b).
Definition mul64 (a b : Z) : Z := wrap64 (a * b).

End GoInt.
Import GoInt.

(** ** The data carried by a batch (pdata's [ptrace.Traces]) *)

Inductive StatusCode := StatusCodeUnset | StatusCodeOk | StatusCodeError.

Record Span := mkSpan {
  TraceID : string;
  SpanID : string;
  ParentSpanID : string;
  Name : string;
  StartTimestamp : Z;
  EndTimestamp : Z;
  Status : StatusCode
}.

(** A resource and a scope are attribute mappings; only their identity
    matters below. *)
Definition Resource := list (string * string).
Definition InstrumentationScope := string.

Record ScopeSpans := mkScopeSpans {
  Scope : InstrumentationScope;
  Spans : list Span
}.

Record ResourceSpans := mkResourceSpans {
  ResourceOf : Resource;
  ScopeSpansOf : list ScopeSpans
}.

Definition Traces := list ResourceSpans.

Definition len {A : Type} (l : list A) : Z := Z.of_nat (List.length l).

(** ** storage.go *)

(** The fields of [Config] that the store reads. *)
Record Config := mkConfig {
  MaxMemoryMB : Z;
  MaxTraces : Z;
  TraceExpiration : Z
}.

Record traceEntry := mkEntry {
  traces : Traces;
  timestamp : Z;
  sizeBytes : Z
}.

Record TraceStorage := mkStorage {
  s_traces : list traceEntry;
  config : Config;
  totalSizeBytes : Z;
  totalSpanCount : Z;
  droppedTraces : Z;
  droppedOldest : Z
}.

Definition NewTraceStorage (c : Config) : TraceStorage :=
  mkStorage [] c 0 0 0 0.

(** [countSpans]: the two nested loops add the length of every span slice
    to [count]. *)
Definition countScopeSpans (count : Z) (rs : ResourceSpans) : Z :=
  fold_left (fun c ss => wrapInt (c + len (Spans ss))) (ScopeSpansOf rs) count.

Definition countSpans (t : Traces) : Z :=
  fold_left countScopeSpans t 0.

Definition estimateSize (t : Traces) (spanCount : Z) : Z :=
  let baseSize := 100 in
  let resourceSize := wrap64 (wrapInt (len t * 500)) in
  let spanSize := wrap64 (wrapInt (spanCount * 1024)) in
  add64 (add64 baseSize resourceSize) spanSize.

Definition maxBytesOf (c : Config) : Z :=
  mul64 (mul64 (wrap64 (MaxMemoryMB c)) 1024) 1024.

Definition removeOldest (s : TraceStorage) : TraceStorage :=
  match s_traces s with
  | [] => s
  | oldest :: rest =>
      let spanCount := countSpans (traces oldest) in
      mkStorage rest (config s)
        (sub64 (totalSizeBytes s) (sizeBytes oldest))
        (wrapInt (totalSpanCount s - spanCount))
        (droppedTraces s)
        (wrapInt (droppedOldest s + 1))
  end.

(** The guard of the loop of [evictOldestUntilRoom]. *)
Definition noRoom (s : TraceStorage) (newSize : Z) : bool :=
  (0 <? len (s_traces s)) &&
  (maxBytesOf (config s) <? add64 (totalSizeBytes s) newSize).

(** The loop removes one entry per iteration, so it runs at most
    [length (s_traces s)] times; [n] counts the iterations left. *)
Fixpoint evictLoop (n : nat) (s : TraceStorage) (newSize : Z) : TraceStorage :=
  match n with
  | O => s
  | S n' =>
      if noRoom s newSize then evictLoop n' (removeOldest s) newSize else s
  end.

Definition evictOldestUntilRoom (s : TraceStorage) (newSize : Z) : TraceStorage :=
  evictLoop (List.length (s_traces s)) s newSize.

(** The check of the memory limit in [AddTraces]. *)
Definition byteCapStep (s : TraceStorage) (estimatedSize : Z) : TraceStorage :=
  if 0 <? MaxMemoryMB (config s) then
    if maxBytesOf (config s) <? add64 (totalSizeBytes s) estimatedSize
    then evictOldestUntilRoom s estimatedSize
    else s
  else s.

(** The check of the trace count limit in [AddTraces]. *)
Definition countCapStep (s : TraceStorage) : TraceStorage :=
  if (0 <? MaxTraces (config s)) && (MaxTraces (config s) <=? len (s_traces s))
  then removeOldest s
  else s.

(** [AddTraces]; [now] is the value of [time.Now()]. *)
Definition AddTraces (s : TraceStorage) (t : Traces) (now : Z) : TraceStorage :=
  let cloned := t in
  let spanCount := countSpans cloned in
  let estimatedSize := estimateSize cloned spanCount in
  let entry := mkEntry cloned now estimatedSize in
  let s2 := countCapStep (byteCapStep s estimatedSize) in
  mkStorage (s_traces s2 ++ [entry]) (config s2)
    (add64 (totalSizeBytes s2) estimatedSize)
    (wrapInt (totalSpanCount s2 + spanCount))
    (droppedTraces s2)
    (droppedOldest s2).

(** One iteration of the loop of [expireOldTracesLocked]: the state is the
    slice [newTraces] built so far and the store whose counters the loop
    updates. *)
Definition expireStep (cutoff : Z) (acc : list traceEntry * TraceStorage)
    (entry : traceEntry) : list traceEntry * TraceStorage :=
  let '(newTraces, s) := acc in
  if cutoff <? timestamp entry then (newTraces ++ [entry], s)
  else
    let spanCount := countSpans (traces entry) in
    (newTraces,
     mkStorage (s_traces s) (config s)
       (sub64 (totalSizeBytes s) (sizeBytes entry))
       (wrapInt (totalSpanCount s - spanCount))
       (droppedTraces s)
       (wrapInt (droppedOldest s + 1))).

Definition expireOldTracesLocked (s : TraceStorage) (now : Z) : TraceStorage :=
  if TraceExpiration (config s) <=? 0 then s
  else
    let cutoff := now - TraceExpiration (config s) in
    let '(newTraces, s') := fold_left (expireStep cutoff) (s_traces s) ([], s) in
    if len newTraces <? len (s_traces s') then
      mkStorage newTraces (config s') (totalSizeBytes s') (totalSpanCount s')
        (droppedTraces s') (droppedOldest s')
    else s'.

Definition GetTraces (s : TraceStorage) (now : Z) : TraceStorage * list Traces :=
  let s' := expireOldTracesLocked s now in
  (s', map traces (s_traces s')).

(** What [GetStats] returns; the last component is [totalSizeBytes] before
    its conversion to megabytes. *)
Record Stats := mkStats {
  st_batches : Z;
  st_spans : Z;
  st_droppedTraces : Z;
  st_droppedOldest : Z;
  st_memoryBytes : Z
}.

Definition GetStats (s : TraceStorage) : Stats :=
  mkStats (len (s_traces s)) (totalSpanCount s) (droppedTraces s)
    (droppedOldest s) (totalSizeBytes s).

(** The operations a client of the store can perform. *)
Inductive Op :=
| OpAddTraces (t : Traces) (now : Z)
| OpGetTraces (now : Z)
| OpGetStats.

Definition step (s : TraceStorage) (o : Op) : TraceStorage :=
  match o with
  | OpAddTraces t now => AddTraces s t now
  | OpGetTraces now => fst (GetTraces s now)
  | OpGetStats => s
  end.

Definition run (s : TraceStorage) (ops : list Op) : TraceStorage :=
  fold_left step ops s.

(** ** markdown.go: grouping, ordering and the span tree *)

Record spanInfo := mkSpanInfo {
  span : Span;
  resource : Resource;
  scope : InstrumentationScope
}.

Record traceInfo := mkTraceInfo {
  traceID : string;
  spans : list spanInfo
}.

#[warnings="-register-all"]
Inductive spanTreeNode :=
| Node (info : spanInfo) (children : list spanTreeNode) (depth : Z).

Definition nodeInfo (n : spanTreeNode) : spanInfo :=
  match n with Node i _ _ => i end.
Definition nodeChildren (n : spanTreeNode) : list spanTreeNode :=
  match n with Node _ c _ => c end.
Definition nodeDepth (n : spanTreeNode) : Z :=
  match n with Node _ _ d => d end.

(** What the language and its library leave open: the algorithm of
    [sort.Slice] and the order in which [range] visits a map ([rangeTraces]
    for [traceMap] in [WriteMarkdown]; [rangeSpans] for [spanMap] in the call
    of [buildChildren] on the node of the given span id and depth). *)
Record Runtime := mkRuntime {
  sortSlice : forall A : Type, (A -> A -> bool) -> list A -> list A;
  rangeTraces : gmap string traceInfo -> list (string * traceInfo);
  rangeSpans : string -> Z -> gmap string spanInfo -> list (string * spanInfo)
}.

(** The contract of the two: [sort.Slice] permutes its argument into an
    order with no inversion, and [range] visits every entry once. *)
Record RuntimeOK (rt : Runtime) : Prop := mkRuntimeOK {
  sort_perm : forall (A : Type) (less : A -> A -> bool) (l : list A),
    Permutation (sortSlice rt A less l) l;
  sort_sorted : forall (A : Type) (key : A -> Z) (l : list A),
    StronglySorted (fun a b => key a <= key b)
      (sortSlice rt A (fun a b => key a <? key b) l);
  rangeTraces_perm : forall m, Permutation (rangeTraces rt m) (map_to_list m);
  rangeSpans_perm : forall p d m, Permutation (rangeSpans rt p d m) (map_to_list m)
}.

(** The comparison of two elements by an integer key, as the calls of
    [sort.Slice] in the source write it, and the two orders of a slice
    sorted with it. *)
Definition lessBy {A : Type} (key : A -> Z) (a b : A) : bool := key a <? key b.
Definition ascBy {A : Type} (key : A -> Z) (a b : A) : Prop := key a <= key b.
Definition descBy {A : Type} (key : A -> Z) (a b : A) : Prop := key b <= key a.

(** [sort.Slice] on a slice of at most twelve elements is this insertion
    sort: each element moves left past the elements it is less than.  [p]
    is the sorted prefix, last element first. *)
Fixpoint bubble {A : Type} (less : A -> A -> bool) (x : A) (p : list A) : list A :=
  match p with
  | [] => [x]
  | y :: rest => if less x y then y :: bubble less x rest else x :: p
  end.

Definition insertionSort (A : Type) (less : A -> A -> bool) (l : list A) : list A :=
  rev (fold_left (fun p x => bubble less x p) l []).

(** Two runtimes: both sort by insertion; the first visits a map in the
    order of [map_to_list], the second in the reverse order. *)
Definition runtimeFwd : Runtime :=
  mkRuntime insertionSort (fun m => map_to_list m) (fun _ _ m => map_to_list m).

Definition runtimeRev : Runtime :=
  mkRuntime insertionSort (fun m => rev (map_to_list m))
    (fun _ _ m => rev (map_to_list m)).

(** The body of the innermost loop of the grouping in [WriteMarkdown]. *)
Definition addSpan (traceMap : gmap string traceInfo) (si : spanInfo)
    : gmap string traceInfo :=
  let tid := TraceID (span si) in
  let traceMap1 :=
    match traceMap !! tid with
    | Some _ => traceMap
    | None => <[tid := mkTraceInfo tid []]> traceMap
    end in
  match traceMap1 !! tid with
  | Some ti => <[tid := mkTraceInfo (traceID ti) (spans ti ++ [si])]> traceMap1
  | None => traceMap1
  end.

Definition groupScope (res : Resource) (traceMap : gmap string traceInfo)
    (ss : ScopeSpans) : gmap string traceInfo :=
  fold_left (fun tm sp => addSpan tm (mkSpanInfo sp res (Scope ss))) (Spans ss) traceMap.

Definition groupResource (traceMap : gmap string traceInfo) (rs : ResourceSpans)
    : gmap string traceInfo :=
  fold_left (groupScope (ResourceOf rs)) (ScopeSpansOf rs) traceMap.

Definition groupEntry (traceMap : gmap string traceInfo) (e : traceEntry)
    : gmap string traceInfo :=
  fold_left groupResource (traces e) traceMap.

Definition groupTraces (entries : list traceEntry) : gmap string traceInfo :=
  fold_left groupEntry entries ∅.

Definition startOf (si : spanInfo) : Z := StartTimestamp (span si).

Definition getEarliestTime (ti : traceInfo) : Z :=
  match spans ti with
  | [] => 0
  | s0 :: rest =>
      fold_left (fun earliest si =>
                   if startOf si <? earliest then startOf si else earliest)
        rest (startOf s0)
  end.

(** The traces in the order in which [WriteMarkdown] writes them. *)
Definition sortTraces (rt : Runtime) (traceMap : gmap string traceInfo)
    : list traceInfo :=
  sortSlice rt traceInfo
    (fun a b => getEarliestTime a <? getEarliestTime b)
    (map snd (rangeTraces rt traceMap)).

Definition orderedTraces (rt : Runtime) (s : TraceStorage) : list traceInfo :=
  sortTraces rt (groupTraces (s_traces s)).

(** The zero value of [spanInfo]: every identifier empty. *)
Definition zeroSpan : Span := mkSpan "" "" "" "" 0 0 StatusCodeUnset.
Definition zeroSpanInfo : spanInfo := mkSpanInfo zeroSpan [] "".

Definition spanMapOf (l : list spanInfo) : gmap string spanInfo :=
  fold_left (fun m si => <[SpanID (span si) := si]> m) l ∅.

Fixpoint findRoot (l : list spanInfo) : spanInfo :=
  match l with
  | [] => zeroSpanInfo
  | si :: rest =>
      if String.eqb (ParentSpanID (span si)) "" then si else findRoot rest
  end.

Definition rootOf (l : list spanInfo) : spanInfo :=
  let rootSpan := findRoot l in
  match l with
  | s0 :: _ => if String.eqb (SpanID (span rootSpan)) "" then s0 else rootSpan
  | [] => rootSpan
  end.

Definition lessStart (a b : spanTreeNode) : bool :=
  startOf (nodeInfo a) <? startOf (nodeInfo b).

(** The test of the loop of [buildChildren] on a node of id [p], and the
    spans that pass it, in the order of the iteration. *)
Definition isChildOf (p : string) (c : spanInfo) : bool :=
  String.eqb (ParentSpanID (span c)) p.

Definition candidates (rt : Runtime) (p : string) (d : Z)
    (m : gmap string spanInfo) : list spanInfo :=
  List.filter (isChildOf p) (map snd (rangeSpans rt p d m)).

(** [buildChildren] on the node of [si] at depth [depth]; the result is the
    node with its subtree.  [fuel] bounds the depth of the recursion: [None]
    means that the call did not return within it. *)
Fixpoint buildChildren (rt : Runtime) (fuel : nat) (si : spanInfo) (depth : Z)
    (spanMap : gmap string spanInfo) : option spanTreeNode :=
  match fuel with
  | O => None
  | S fuel' =>
      let parentID := SpanID (span si) in
      match
        mapM (fun c => buildChildren rt fuel' c (wrapInt (depth + 1)) spanMap)
          (candidates rt parentID depth spanMap)
      with
      | None => None
      | Some kids => Some (Node si (sortSlice rt spanTreeNode lessStart kids) depth)
      end
  end.

Definition buildSpanTree (rt : Runtime) (fuel : nat) (ti : traceInfo)
    : option spanTreeNode :=
  buildChildren rt fuel (rootOf (spans ti)) 0 (spanMapOf (spans ti)).


(** The number of nodes of a tree, which is the number of calls of
    [buildChildren] that built it. *)
Fixpoint treeSize (t : spanTreeNode) : nat :=
  match t with
  | Node _ kids _ => S (list_sum (map treeSize kids))
  end.

(** ** The lock discipline of the methods of the store *)

Inductive Method := MAddTraces | MGetTraces | MGetStats | MWriteMarkdown.

Inductive LockMode := Shared | Exclusive.

(** [AddTraces] takes [s.mu.Lock()]; [GetTraces], [GetStats] and
    [WriteMarkdown] take [s.mu.RLock()]. *)
Definition lockOf (m : Method) : LockMode :=
  match m with
  | MAddTraces => Exclusive
  | MGetTraces | MGetStats | MWriteMarkdown => Shared
  end.

(** [sync.RWMutex]: any number of readers, or one writer. *)
Record RWMutex := mkRWMutex {
  readers : nat;
  writer : bool
}.

Definition acquire (mode : LockMode) (mu : RWMutex) : option RWMutex :=
  match mode with
  | Shared =>
      if writer mu then None else Some (mkRWMutex (S (readers mu)) false)
  | Exclusive =>
      if writer mu then None
      else match readers mu with
           | O => Some (mkRWMutex O true)
           | S _ => None
           end
  end.

Definition release (mode : LockMode) (mu : RWMutex) : RWMutex :=
  match mode with
  | Shared => mkRWMutex (Nat.pred (readers mu)) (writer mu)
  | Exclusive => mkRWMutex (readers mu) false
  end.

(** The lock and the calls that are between their acquire and their
    deferred release. *)
Record Sys := mkSys {
  mu : RWMutex;
  inside : list Method
}.

Definition sysInit : Sys := mkSys (mkRWMutex O false) [].

Inductive Event := Enter (m : Method) | Leave (m : Method).

Definition methodEqb (a b : Method) : bool :=
  match a, b with
  | MAddTraces, MAddTraces | MGetTraces, MGetTraces
  | MGetStats, MGetStats | MWriteMarkdown, MWriteMarkdown => true
  | _, _ => false
  end.

Fixpoint removeOne (m : Method) (l : list Method) : option (list Method) :=
  match l with
  | [] => None
  | x :: rest =>
      if methodEqb x m then Some rest
      else match removeOne m rest with
           | None => None
           | Some rest' => Some (x :: rest')
           end
  end.

(** A call enters when the lock lets it ([None]: it blocks), and leaves by
    releasing what it took. *)
Definition sysStep (sys : Sys) (e : Event) : option Sys :=
  match e with
  | Enter m =>
      match acquire (lockOf m) (mu sys) with
      | None => None
      | Some mu' => Some (mkSys mu' (m :: inside sys))
      end
  | Leave m =>
      match removeOne m (inside sys) with
      | None => None
      | Some rest => Some (mkSys (release (lockOf m) (mu sys)) rest)
      end
  end.

Fixpoint sysRun (sys : Sys) (es : list Event) : option Sys :=
  match es with
  | [] => Some sys
  | e :: rest =>
      match sysStep sys e with
      | None => None
      | Some sys' => sysRun sys' rest
      end
  end.

(** What the lock guarantees of the calls inside: a writer is alone, and
    readers are counted. *)
Definition lockInv (sys : Sys) : Prop :=
  (writer (mu sys) = true -> inside sys = [MAddTraces] /\ readers (mu sys) = O) /\
  (writer (mu sys) = false ->
   readers (mu sys) = List.length (inside sys) /\
   List.Forall (fun m => lockOf m = Shared) (inside sys)).

(** ** Quantities the properties are stated with *)

(** The totals recomputed from scratch over the retained entries, with the
    arithmetic of the fields they are compared with. *)
Definition recomputeBytes (es : list traceEntry) : Z :=
  fold_left (fun acc e => add64 acc (sizeBytes e)) es 0.

Definition recomputeSpans (es : list traceEntry) : Z :=
  fold_left (fun acc e => wrapInt (acc + countSpans (traces e))) es 0.

Definition accounted (s : TraceStorage) : Prop :=
  totalSizeBytes s = recomputeBytes (s_traces s) /\
  totalSpanCount s = recomputeSpans (s_traces s).

(** The same sums without wrap-around. *)
Fixpoint sumWith {A : Type} (f : A -> Z) (l : list A) : Z :=
  match l with
  | [] => 0
  | x :: rest => f x + sumWith f rest
  end.

Definition spansOfEntry (e : traceEntry) : Z := countSpans (traces e).

(** The entries that [expireOldTracesLocked] keeps at the given cutoff. *)
Definition fresh (cutoff : Z) (e : traceEntry) : bool := cutoff <? timestamp e.

Definition stale (cutoff : Z) (e : traceEntry) : bool := negb (fresh cutoff e).

(** The integer fields of a store hold values of their types. *)
Definition wellTyped (s : TraceStorage) : Prop :=
  inInt64 (totalSizeBytes s) /\ inInt64 (totalSpanCount s) /\
  inInt64 (droppedTraces s) /\ inInt64 (droppedOldest s).

(** Every batch admitted so far, [n] of them, is either retained or counted
    in [droppedOldest]; [droppedTraces] counts nothing. *)
Definition dropInv (n : Z) (s : TraceStorage) : Prop :=
  droppedTraces s = 0 /\
  droppedOldest s = wrapInt (n - len (s_traces s)).

(** An entry carries the size estimated from its own content. *)
Definition sizedByContent (e : traceEntry) : Prop :=
  sizeBytes e = estimateSize (traces e) (countSpans (traces e)).

(** A batch of one span, and a store that admitted it at time 100 with an
    expiration of 10. *)
Definition oneSpanBatch : Traces :=
  [mkResourceSpans [] [mkScopeSpans "" [mkSpan "T" "a" "" "op" 100 101 StatusCodeOk]]].

Definition storeAt100 : TraceStorage :=
  AddTraces (NewTraceStorage (mkConfig 0 0 10)) oneSpanBatch 100.

Definition admitBatch (s : TraceStorage) (b : Traces * Z) : TraceStorage :=
  AddTraces s (fst b) (snd b).

Definition isAdd (o : Op) : bool :=
  match o with OpAddTraces _ _ => true | _ => false end.

(** The spans of a batch with their resource and scope, in the order in
    which the loops of [WriteMarkdown] visit them. *)
Definition entrySpanInfos (e : traceEntry) : list spanInfo :=
  flat_map (fun rs =>
    flat_map (fun ss => map (fun sp => mkSpanInfo sp (ResourceOf rs) (Scope ss)) (Spans ss))
      (ScopeSpansOf rs)) (traces e).

Definition allSpanInfos (entries : list traceEntry) : list spanInfo :=
  flat_map entrySpanInfos entries.

Definition hasTrace (T : string) (si : spanInfo) : bool :=
  String.eqb (TraceID (span si)) T.

Definition hasSpanID (id : string) (si : spanInfo) : bool :=
  String.eqb (SpanID (span si)) id.

(** What the trace map holds for a trace id after the spans [l]. *)
Definition groupOf (T : string) (l : list spanInfo) : option traceInfo :=
  match List.filter (hasTrace T) l with
  | [] => None
  | x :: r => Some (mkTraceInfo T (x :: r))
  end.

Definition earliestLe (a b : traceInfo) : Prop :=
  getEarliestTime a <= getEarliestTime b.



(** A batch with a span of trace "a" and a span of trace "b" that start at
    the same time, and the store that admitted it. *)
Definition tieStore : TraceStorage :=
  run (NewTraceStorage (mkConfig 0 0 0))
    [OpAddTraces
       [mkResourceSpans []
          [mkScopeSpans "" [mkSpan "a" "1" "" "op" 5 6 StatusCodeOk;
                            mkSpan "b" "2" "" "op" 5 6 StatusCodeOk]]] 1].

(** The spans of the id map of a trace. *)
Definition mapSpans (m : gmap string spanInfo) : list spanInfo :=
  map snd (map_to_list m).

(** The parent links of the id map have no cycle: some rank decreases from
    every span to its parent. *)
Definition acyclic (rank : string -> nat) (m : gmap string spanInfo) : Prop :=
  forall si, In si (mapSpans m) ->
    (rank (ParentSpanID (span si)) < rank (SpanID (span si)))%nat.

(** Every span of the id map is filed under its own id. *)
Definition keyed (m : gmap string spanInfo) : Prop :=
  forall k v, m !! k = Some v -> SpanID (span v) = k.


(** The id, if any, that is [k] parent links above the id [y]. *)
Definition parentKey (m : gmap string spanInfo) (y : string) : option string :=
  match m !! y with
  | Some v => Some (ParentSpanID (span v))
  | None => None
  end.

Fixpoint ancestor (m : gmap string spanInfo) (k : nat) (y : string) : option string :=
  match k with
  | O => Some y
  | S k' =>
      match parentKey m y with
      | Some z => ancestor m k' z
      | None => None
      end
  end.

(** The spans of the nodes of a tree, the root first. *)
Fixpoint treeInfos (t : spanTreeNode) : list spanInfo :=
  match t with
  | Node i kids _ => i :: flat_map treeInfos kids
  end.

Definition belowRoot (t : spanTreeNode) : list spanInfo :=
  flat_map treeInfos (nodeChildren t).

(** The number of nested calls of [buildChildren] that built a tree. *)
Fixpoint treeHeight (t : spanTreeNode) : nat :=
  match t with
  | Node _ kids _ => S (list_max (map treeHeight kids))
  end.


(** Every node has for children the spans of the id map whose parent id is
    the id of the node, in ascending order of start time, one level down. *)
Fixpoint childrenByStart (m : gmap string spanInfo) (t : spanTreeNode) : Prop :=
  match t with
  | Node si kids d =>
      Permutation (map nodeInfo kids)
        (List.filter (isChildOf (SpanID (span si))) (mapSpans m)) /\
      StronglySorted (fun a b => startOf a <= startOf b) (map nodeInfo kids) /\
      List.Forall (fun k => nodeDepth k = wrapInt (d + 1)) kids /\
      fold_right and True (map (childrenByStart m) kids)
  end.

Definition startKey (n : spanTreeNode) : Z := startOf (nodeInfo n).


(** The two-span cycle of the specification (a's parent is b, b's parent is
    a), and a trace with a root whose id a later span reuses, closing a
    cycle below the root. *)
Definition spanOf (id parent : string) (start : Z) : spanInfo :=
  mkSpanInfo (mkSpan "T" id parent id start (start + 1) StatusCodeOk) [] "".




(** The same with distinct start times, and a rank for its ids. *)
Definition plainTrace : traceInfo :=
  mkTraceInfo "T" [spanOf "r" "" 1; spanOf "b" "r" 2; spanOf "c" "r" 3; spanOf "d" "c" 4].

Definition plainRank (id : string) : nat :=
  if String.eqb id "r" then 1
  else if String.eqb id "b" then 2
  else if String.eqb id "c" then 2
  else if String.eqb id "d" then 3
  else 0.

(** Inputs on which the properties are exercised: a store limited to two
    batches and three batches to admit, and a store limited to one megabyte
    with a batch of 1024 spans, whose estimated size exceeds the limit. *)
Definition capTwo : Config := mkConfig 0 2 0.

Definition threeBatches : list (Traces * Z) :=
  [(oneSpanBatch, 1); (oneSpanBatch, 2); (oneSpanBatch, 3)].

Definition oneMegabyte : Config := mkConfig 1 0 0.

Definition bigBatch : Traces :=
  [mkResourceSpans []
     [mkScopeSpans "" (repeat (mkSpan "T" "a" "" "op" 100 101 StatusCodeOk) 1024)]].

(** ** Quantities the further properties are stated with *)

(** The entry that [AddTraces] makes of a batch received at a time, and the
    entries that the [AddTraces] calls of a sequence of operations made, in
    the order of the calls. *)
Definition entryOf (b : Traces * Z) : traceEntry :=
  mkEntry (fst b) (snd b) (estimateSize (fst b) (countSpans (fst b))).

Definition admittedBy (o : Op) : list traceEntry :=
  match o with
  | OpAddTraces t now => [entryOf (t, now)]
  | OpGetTraces _ | OpGetStats => []
  end.

Definition admitted (ops : list Op) : list traceEntry :=
  flat_map admittedBy ops.

(** The number of spans of a batch, counted without wrap-around. *)
Definition spansOfResource (rs : ResourceSpans) : Z :=
  sumWith (fun ss => len (Spans ss)) (ScopeSpansOf rs).

Definition spanTotal (t : Traces) : Z := sumWith spansOfResource t.

(** ** markdown.go: the measures of a trace and the table of contents *)

Definition endOf (si : spanInfo) : Z := EndTimestamp (span si).

Definition isError (si : spanInfo) : bool :=
  match Status (span si) with
  | StatusCodeError => true
  | StatusCodeUnset | StatusCodeOk => false
  end.

(** [hasError]: the loop returns at the first span whose status is an
    error. *)
Fixpoint anyError (l : list spanInfo) : bool :=
  match l with
  | [] => false
  | si :: rest => if isError si then true else anyError rest
  end.

Definition hasError (ti : traceInfo) : bool := anyError (spans ti).

(** Wrap-around of [uint64], the type of the timestamps. *)
Definition wrapUint64 (z : Z) : Z := z mod 2 ^ 64.

(** One iteration of the loop of [getDuration], on the pair of [earliest]
    and [latest]. *)
Definition durationStep (acc : Z * Z) (si : spanInfo) : Z * Z :=
  (if startOf si <? fst acc then startOf si else fst acc,
   if snd acc <? endOf si then endOf si else snd acc).

Definition earliestLatest (ti : traceInfo) : Z * Z :=
  match spans ti with
  | [] => (0, 0)
  | s0 :: _ => fold_left durationStep (spans ti) (startOf s0, endOf s0)
  end.

(** [getDuration]: the difference of two [uint64] converted to a
    [time.Duration], a signed number of nanoseconds. *)
Definition getDuration (ti : traceInfo) : Z :=
  match spans ti with
  | [] => 0
  | _ :: _ =>
      let '(earliest, latest) := earliestLatest ti in
      wrap64 (wrapUint64 (latest - earliest))
  end.

(** [getRootSpanName]: the name of the first span with no parent, or else
    of the first span. *)
Fixpoint firstParentless (l : list spanInfo) : option spanInfo :=
  match l with
  | [] => None
  | si :: rest =>
      if String.eqb (ParentSpanID (span si)) "" then Some si
      else firstParentless rest
  end.

Definition getRootSpanName (ti : traceInfo) : string :=
  match firstParentless (spans ti) with
  | Some si => Name (span si)
  | None =>
      match spans ti with
      | s0 :: _ => Name (span s0)
      | [] => "unknown"
      end
  end.

(** [findTraceIndex]; [i] is the index of the head of [l] in the slice. *)
Fixpoint findTraceIndexFrom (i : Z) (l : list traceInfo) (target : traceInfo) : Z :=
  match l with
  | [] => -1
  | ti :: rest =>
      if String.eqb (traceID ti) (traceID target) then i
      else findTraceIndexFrom (i + 1) rest target
  end.

Definition findTraceIndex (l : list traceInfo) (target : traceInfo) : Z :=
  findTraceIndexFrom 0 l target.

(** The two groups of the table of contents of [WriteMarkdown], and the
    number that a row of the table and a section of the report carry. *)
Definition errorTraces (l : list traceInfo) : list traceInfo :=
  List.filter hasError l.

Definition successTraces (l : list traceInfo) : list traceInfo :=
  List.filter (fun ti => negb (hasError ti)) l.

Definition tocNumber (l : list traceInfo) (ti : traceInfo) : Z :=
  wrapInt (findTraceIndex l ti + 1).

Definition sectionNumber (idx : nat) : Z := wrapInt (Z.of_nat idx + 1).

(** The spans of a trace as [writeTrace] sorts them before it builds the
    tree. *)
Definition sortedSpans (rt : Runtime) (ti : traceInfo) : list spanInfo :=
  sortSlice rt spanInfo (fun a b => startOf a <? startOf b) (spans ti).

(** [writeTraceSummary]: the number of rows of the span table, and the
    rows, each with its number; [None] stands for an index out of range. *)
Definition clampMaxSpans (maxSpansPerTrace totalSpans : Z) : Z :=
  if (maxSpansPerTrace =? 0) || (totalSpans <? maxSpansPerTrace)
  then totalSpans else maxSpansPerTrace.

Definition summaryRows (maxSpansPerTrace : Z) (l : list spanInfo)
    : option (list (Z * spanInfo)) :=
  let maxSpans := clampMaxSpans maxSpansPerTrace (len l) in
  mapM (fun i => match nth_error l i with
                 | Some si => Some (wrapInt (Z.of_nat i + 1), si)
                 | None => None
                 end)
    (seq 0 (Z.to_nat maxSpans)).

(** The number in the line that tells how many spans the table leaves out,
    when there is such a line. *)
Definition summaryHidden (maxSpansPerTrace : Z) (l : list spanInfo) : option Z :=
  let maxSpans := clampMaxSpans maxSpansPerTrace (len l) in
  if maxSpans <? len l then Some (wrapInt (len l - maxSpans)) else None.

(** The number of spans of the traces of a report. *)
Definition reportSpanCount (l : list traceInfo) : Z :=
  sumWith (fun ti => len (spans ti)) l.

Definition mapSpanCount (m : gmap string traceInfo) : Z :=
  sumWith (fun kv => len (spans (snd kv))) (map_to_list m).

(** ** markdown.go: the lines of the span timeline *)

(** A line of the timeline as [writeSpanTree] prints it, less the bar and
    the text of the duration, which the source computes in floating
    point. *)
Record treeLine := mkTreeLine {
  linePrefix : string;
  lineConnector : string;
  lineName : string;
  lineDuration : Z;
  lineError : bool
}.

(** The name of a span cut to [nameMaxLen] bytes. *)
Definition truncateName (name : string) : string :=
  if 50 <? Z.of_nat (String.length name)
  then String.append (substring 0 (50 - 3) name) "..."
  else name.

Definition connectorOf (depth : Z) (isLast : bool) : string :=
  if depth =? 0 then "" else if isLast then "└─" else "├─".

Definition childPrefixOf (depth : Z) (prefix : string) (isLast : bool) : string :=
  if 0 <? depth
  then String.append prefix (if isLast then "   " else "│  ")
  else prefix.

(** [writeSpanTree]: the line of the node, then the lines of its children;
    a child is the last one when no child follows it. *)
Fixpoint writeSpanTree (node : spanTreeNode) (prefix : string) (isLast : bool)
    : list treeLine :=
  match node with
  | Node si kids depth =>
      mkTreeLine prefix (connectorOf depth isLast) (truncateName (Name (span si)))
        (wrap64 (wrapUint64 (endOf si - startOf si))) (isError si)
      :: (fix writeChildren (l : list spanTreeNode) : list treeLine :=
            match l with
            | [] => []
            | child :: rest =>
                writeSpanTree child (childPrefixOf depth prefix isLast)
                  (match rest with [] => true | _ :: _ => false end)
                ++ writeChildren rest
            end) kids
  end.

(** The spans of the nodes of a tree with their depths, the root first. *)
Fixpoint treeRows (t : spanTreeNode) : list (spanInfo * Z) :=
  match t with
  | Node i kids d => (i, d) :: flat_map treeRows kids
  end.

(** The prefix that a sequence of ancestors leaves: blank under an
    ancestor that was a last child, a bar under any other. *)
Definition segmentsOf (flags : list bool) : string :=
  fold_left
    (fun (p : string) (isLast : bool) =>
       String.append p (if isLast then "   " else "│  "))
    flags EmptyString.

(** A line is the line of a span at a depth. *)
Definition lineOf (line : treeLine) (row : spanInfo * Z) : Prop :=
  lineName line = truncateName (Name (span (fst row))) /\
  lineDuration line = wrap64 (wrapUint64 (endOf (fst row) - startOf (fst row))) /\
  lineError line = isError (fst row) /\
  (snd row = 0 -> linePrefix line = "" /\ lineConnector line = "") /\
  (snd row <> 0 ->
   (lineConnector line = "└─" \/ lineConnector line = "├─") /\
   exists flags, len flags = snd row - 1 /\ linePrefix line = segmentsOf flags).

(** ** Inputs the further properties are shown on *)

(** An admission, a snapshot and another admission. *)
Definition addGetAdd : list Op :=
  [OpAddTraces oneSpanBatch 1; OpGetTraces 2; OpAddTraces oneSpanBatch 3].

(** The tree of [plainTrace]. *)
Definition plainTree : spanTreeNode :=
  Node (spanOf "r" "" 1)
    [Node (spanOf "b" "r" 2) [] 1;
     Node (spanOf "c" "r" 3) [Node (spanOf "d" "c" 4) [] 2] 1] 0.

(** * Properties *)

(** ** Machine arithmetic *)

Lemma wrap64_range z : inInt64 (wrap64 z).
Proof.
  unfold inInt64, wrap64, minInt64, maxInt64.
  pose proof (Z.mod_pos_bound (z + 2 ^ 63) (2 ^ 64) ltac:(lia)). lia.
Qed.

Lemma wrap64_small z : inInt64 z -> wrap64 z = z.
Proof.
  unfold inInt64, wrap64, minInt64, maxInt64. intros H.
  rewrite Z.mod_small; lia.
Qed.

Lemma wrap64_idem z : wrap64 (wrap64 z) = wrap64 z.
Proof. apply wrap64_small, wrap64_range. Qed.

Lemma wrap64_add_l a b : wrap64 (wrap64 a + b) = wrap64 (a + b).
Proof.
  unfold wrap64. f_equal.
  replace ((a + 2 ^ 63) mod 2 ^ 64 - 2 ^ 63 + b + 2 ^ 63)
    with ((a + 2 ^ 63) mod 2 ^ 64 + b) by lia.
  rewrite Zplus_mod_idemp_l. f_equal. lia.
Qed.

Lemma wrap64_add_r a b : wrap64 (a + wrap64 b) = wrap64 (a + b).
Proof. rewrite Z.add_comm, wrap64_add_l. f_equal. lia. Qed.

Lemma wrap64_sub_l a b : wrap64 (wrap64 a - b) = wrap64 (a - b).
Proof. unfold Z.sub. apply wrap64_add_l. Qed.

Lemma wrapInt_add_l a b : wrapInt (wrapInt a + b) = wrapInt (a + b).
Proof. apply wrap64_add_l. Qed.

Lemma wrapInt_sub_l a b : wrapInt (wrapInt a - b) = wrapInt (a - b).
Proof. apply wrap64_sub_l. Qed.

Lemma wrapInt_small z : inInt64 z -> wrapInt z = z.
Proof. apply wrap64_small. Qed.

Lemma len_app {A} (l k : list A) : len (l ++ k) = len l + len k.
Proof. unfold len. rewrite length_app. lia. Qed.

Lemma len_nonneg {A} (l : list A) : 0 <= len l.
Proof. unfold len. lia. Qed.

(** ** The running totals *)

Lemma recomputeBytes_from acc es :
  fold_left (fun a e => add64 a (sizeBytes e)) es (wrap64 acc)
  = wrap64 (acc + sumWith sizeBytes es).
Proof.
  revert acc. induction es as [|e es IH]; intros acc; simpl.
  - f_equal. lia.
  - unfold add64 at 2. rewrite wrap64_add_l, IH. f_equal. lia.
Qed.

Lemma recomputeBytes_sum es : recomputeBytes es = wrap64 (sumWith sizeBytes es).
Proof.
  unfold recomputeBytes. change 0 with (wrap64 0) at 1.
  now rewrite recomputeBytes_from.
Qed.

Lemma recomputeSpans_from acc es :
  fold_left (fun a e => wrapInt (a + countSpans (traces e))) es (wrapInt acc)
  = wrapInt (acc + sumWith spansOfEntry es).
Proof.
  revert acc. induction es as [|e es IH]; intros acc; simpl.
  - f_equal. lia.
  - rewrite wrapInt_add_l, IH. f_equal. unfold spansOfEntry. lia.
Qed.

Lemma recomputeSpans_sum es : recomputeSpans es = wrapInt (sumWith spansOfEntry es).
Proof.
  unfold recomputeSpans. change 0 with (wrapInt 0) at 1.
  now rewrite recomputeSpans_from.
Qed.

Lemma sumWith_app {A} (f : A -> Z) l k :
  sumWith f (l ++ k) = sumWith f l + sumWith f k.
Proof. induction l; simpl; lia. Qed.

(** The invariant in the form the proofs use: the totals are the exact sums
    reduced to the width of their fields. *)
Lemma accounted_iff s :
  accounted s <->
  totalSizeBytes s = wrap64 (sumWith sizeBytes (s_traces s)) /\
  totalSpanCount s = wrapInt (sumWith spansOfEntry (s_traces s)).
Proof. unfold accounted. now rewrite recomputeBytes_sum, recomputeSpans_sum. Qed.

Lemma removeOldest_accounted s : accounted s -> accounted (removeOldest s).
Proof.
  rewrite !accounted_iff. unfold removeOldest.
  destruct (s_traces s) as [|e es] eqn:E; [now rewrite E|].
  cbn [s_traces totalSizeBytes totalSpanCount sumWith]. intros [Hb Hs].
  rewrite Hb, Hs. unfold sub64. rewrite wrap64_sub_l, wrapInt_sub_l.
  split; f_equal; unfold spansOfEntry; lia.
Qed.

Lemma removeOldest_config s : config (removeOldest s) = config s.
Proof. unfold removeOldest. now destruct (s_traces s). Qed.

Lemma evictLoop_accounted n s newSize :
  accounted s -> accounted (evictLoop n s newSize).
Proof.
  revert s. induction n as [|n IH]; intros s H; simpl; [assumption|].
  destruct (noRoom s newSize); [|assumption].
  apply IH, removeOldest_accounted, H.
Qed.

Lemma evictLoop_config n s newSize : config (evictLoop n s newSize) = config s.
Proof.
  revert s. induction n as [|n IH]; intros s; simpl; [reflexivity|].
  destruct (noRoom s newSize); [|reflexivity].
  now rewrite IH, removeOldest_config.
Qed.

Lemma byteCapStep_accounted s est : accounted s -> accounted (byteCapStep s est).
Proof.
  intros H. unfold byteCapStep.
  destruct (0 <? MaxMemoryMB (config s)); [|assumption].
  destruct (maxBytesOf (config s) <? add64 (totalSizeBytes s) est); [|assumption].
  now apply evictLoop_accounted.
Qed.

Lemma countCapStep_accounted s : accounted s -> accounted (countCapStep s).
Proof.
  intros H. unfold countCapStep.
  destruct (_ && _); [now apply removeOldest_accounted|assumption].
Qed.

Lemma AddTraces_accounted s t now : accounted s -> accounted (AddTraces s t now).
Proof.
  intros H. unfold AddTraces.
  set (est := estimateSize t (countSpans t)).
  pose proof (countCapStep_accounted _ (byteCapStep_accounted s est H)) as H2.
  apply accounted_iff in H2. destruct H2 as [Hb Hs].
  apply accounted_iff. cbn [s_traces totalSizeBytes totalSpanCount].
  rewrite Hb, Hs, !sumWith_app. cbn [sumWith sizeBytes].
  unfold add64. rewrite wrap64_add_l, wrapInt_add_l.
  split; f_equal; unfold spansOfEntry; cbn [traces]; lia.
Qed.

(** ** Age-based expiry *)

Lemma sumWith_filter_split {A} (f : A -> Z) (p : A -> bool) l :
  sumWith f l = sumWith f (List.filter p l) + sumWith f (List.filter (fun x => negb (p x)) l).
Proof.
  induction l as [|x l IH]; simpl; [reflexivity|].
  destruct (p x); simpl; lia.
Qed.

Lemma filter_length_le {A} (p : A -> bool) l :
  (List.length (List.filter p l) <= List.length l)%nat.
Proof. induction l as [|x l IH]; simpl; [lia|]. destruct (p x); simpl; lia. Qed.

Lemma filter_full {A} (p : A -> bool) l :
  List.length (List.filter p l) = List.length l -> List.filter p l = l.
Proof.
  induction l as [|x l IH]; simpl; [reflexivity|].
  destruct (p x); simpl; intros H.
  - f_equal. apply IH. lia.
  - pose proof (filter_length_le p l). lia.
Qed.

Lemma len_split_filter {A} (p : A -> bool) (l : list A) :
  len l = len (List.filter p l) + len (List.filter (fun x => negb (p x)) l).
Proof.
  unfold len. induction l as [|x l IH]; simpl; [reflexivity|].
  destruct (p x); simpl; lia.
Qed.

Lemma expireStep_fresh cutoff acc s e :
  fresh cutoff e = true -> expireStep cutoff (acc, s) e = (acc ++ [e], s).
Proof. unfold fresh, expireStep. now intros ->. Qed.

Lemma expireStep_stale cutoff acc s e :
  fresh cutoff e = false ->
  expireStep cutoff (acc, s) e
  = (acc, mkStorage (s_traces s) (config s)
            (sub64 (totalSizeBytes s) (sizeBytes e))
            (wrapInt (totalSpanCount s - countSpans (traces e)))
            (droppedTraces s)
            (wrapInt (droppedOldest s + 1))).
Proof. unfold fresh, expireStep. now intros ->. Qed.

(** The loop of [expireOldTracesLocked] from any point of its run. *)
Lemma expire_fold cutoff es : forall acc s0,
  let r := fold_left (expireStep cutoff) es (acc, s0) in
  fst r = acc ++ List.filter (fresh cutoff) es /\
  s_traces (snd r) = s_traces s0 /\
  config (snd r) = config s0 /\
  droppedTraces (snd r) = droppedTraces s0 /\
  (inInt64 (totalSizeBytes s0) ->
   totalSizeBytes (snd r)
   = wrap64 (totalSizeBytes s0 - sumWith sizeBytes (List.filter (stale cutoff) es))) /\
  (inInt64 (totalSpanCount s0) ->
   totalSpanCount (snd r)
   = wrapInt (totalSpanCount s0 - sumWith spansOfEntry (List.filter (stale cutoff) es))) /\
  (inInt64 (droppedOldest s0) ->
   droppedOldest (snd r)
   = wrapInt (droppedOldest s0 + len (List.filter (stale cutoff) es))).
Proof.
  induction es as [|e es IH]; intros acc s0; cbn zeta.
  - cbn [fold_left fst snd List.filter sumWith]. rewrite app_nil_r.
    repeat split; trivial; intros H; symmetry.
    + rewrite Z.sub_0_r. now apply wrap64_small.
    + rewrite Z.sub_0_r. now apply wrapInt_small.
    + change (len []) with 0. rewrite Z.add_0_r. now apply wrapInt_small.
  - cbn [fold_left List.filter]. destruct (fresh cutoff e) eqn:F.
    + rewrite (expireStep_fresh cutoff acc s0 e F).
      replace (stale cutoff e) with false by (unfold stale; now rewrite F).
      specialize (IH (acc ++ [e]) s0). cbn zeta in IH.
      destruct IH as (I1 & I2 & I3 & I4 & I5 & I6 & I7).
      rewrite I1, <- app_assoc. repeat split; trivial.
    + rewrite (expireStep_stale cutoff acc s0 e F).
      replace (stale cutoff e) with true by (unfold stale; now rewrite F).
      match goal with
      | |- context [fold_left _ es (acc, ?s1)] => specialize (IH acc s1)
      end.
      cbn zeta in IH. destruct IH as (I1 & I2 & I3 & I4 & I5 & I6 & I7).
      cbn [s_traces config droppedTraces totalSizeBytes totalSpanCount droppedOldest]
        in I2, I3, I4, I5, I6, I7.
      repeat split; trivial; intros H.
      * rewrite I5 by apply wrap64_range. unfold sub64.
        rewrite wrap64_sub_l. cbn [sumWith]. f_equal. lia.
      * rewrite I6 by apply wrap64_range.
        rewrite wrapInt_sub_l. cbn [sumWith]. f_equal. unfold spansOfEntry. lia.
      * rewrite I7 by apply wrap64_range.
        rewrite wrapInt_add_l. f_equal. unfold len. cbn [List.length]. lia.
Qed.

(** What [expireOldTracesLocked] does when an expiration is configured. *)
Lemma expire_spec s now :
  0 < TraceExpiration (config s) ->
  let cutoff := now - TraceExpiration (config s) in
  let s' := expireOldTracesLocked s now in
  s_traces s' = List.filter (fresh cutoff) (s_traces s) /\
  config s' = config s /\
  droppedTraces s' = droppedTraces s /\
  (inInt64 (totalSizeBytes s) ->
   totalSizeBytes s'
   = wrap64 (totalSizeBytes s - sumWith sizeBytes (List.filter (stale cutoff) (s_traces s)))) /\
  (inInt64 (totalSpanCount s) ->
   totalSpanCount s'
   = wrapInt (totalSpanCount s - sumWith spansOfEntry (List.filter (stale cutoff) (s_traces s)))) /\
  (inInt64 (droppedOldest s) ->
   droppedOldest s'
   = wrapInt (droppedOldest s + len (List.filter (stale cutoff) (s_traces s)))).
Proof.
  intros Hpos cutoff s'. subst s'. unfold expireOldTracesLocked.
  destruct (TraceExpiration (config s) <=? 0) eqn:E; [lia|]. fold cutoff.
  pose proof (expire_fold cutoff (s_traces s) [] s) as H. cbn zeta in H.
  destruct (fold_left (expireStep cutoff) (s_traces s) ([], s)) as [newTraces s1].
  cbn [fst snd app] in H. destruct H as (I1 & I2 & I3 & I4 & I5 & I6 & I7).
  destruct (len newTraces <? len (s_traces s1)) eqn:L;
    cbn [s_traces config droppedTraces totalSizeBytes totalSpanCount droppedOldest].
  - repeat split; trivial.
  - repeat split; trivial. rewrite I2. symmetry. subst newTraces.
    apply filter_full. rewrite I2 in L. unfold len in L.
    pose proof (filter_length_le (fresh cutoff) (s_traces s)). lia.
Qed.

Lemma expire_off s now :
  TraceExpiration (config s) <= 0 -> expireOldTracesLocked s now = s.
Proof.
  intros H. unfold expireOldTracesLocked.
  destruct (TraceExpiration (config s) <=? 0) eqn:E; [reflexivity|lia].
Qed.

Lemma expire_accounted s now :
  accounted s -> accounted (expireOldTracesLocked s now).
Proof.
  intros H. destruct (Z_lt_le_dec 0 (TraceExpiration (config s))) as [Hpos|Hoff].
  - apply accounted_iff in H. destruct H as [Hb Hs]. apply accounted_iff.
    destruct (expire_spec s now Hpos) as (I1 & _ & _ & I5 & I6 & _).
    rewrite I1, I5, I6 by (rewrite ?Hb, ?Hs; apply wrap64_range).
    rewrite Hb, Hs, wrap64_sub_l, wrapInt_sub_l.
    set (cutoff := now - TraceExpiration (config s)).
    pose proof (sumWith_filter_split sizeBytes (fresh cutoff) (s_traces s)) as Eb.
    pose proof (sumWith_filter_split spansOfEntry (fresh cutoff) (s_traces s)) as Es.
    fold (stale cutoff) in Eb, Es.
    split; f_equal; lia.
  - now rewrite expire_off.
Qed.

Lemma step_accounted s o : accounted s -> accounted (step s o).
Proof.
  destruct o as [t now|now|]; simpl; intros H.
  - now apply AddTraces_accounted.
  - now apply expire_accounted.
  - assumption.
Qed.

Lemma run_accounted ops : forall s, accounted s -> accounted (run s ops).
Proof.
  unfold run. induction ops as [|o ops IH]; intros s H; simpl; [assumption|].
  apply IH, step_accounted, H.
Qed.

(** ** Eviction *)

Lemma removeOldest_traces s : s_traces (removeOldest s) = skipn 1 (s_traces s).
Proof. unfold removeOldest. destruct (s_traces s) eqn:E; [now rewrite E|reflexivity]. Qed.

Lemma removeOldest_droppedTraces s : droppedTraces (removeOldest s) = droppedTraces s.
Proof. unfold removeOldest. now destruct (s_traces s). Qed.

Lemma iter_removeOldest_traces m s :
  s_traces (Nat.iter m removeOldest s) = skipn m (s_traces s).
Proof.
  induction m as [|m IH]; [reflexivity|].
  rewrite Nat.iter_succ, removeOldest_traces, IH.
  rewrite skipn_skipn. reflexivity.
Qed.

Lemma iter_removeOldest_config m s : config (Nat.iter m removeOldest s) = config s.
Proof. induction m as [|m IH]; [reflexivity|]. now rewrite Nat.iter_succ, removeOldest_config. Qed.

Lemma iter_removeOldest_shift m s :
  Nat.iter m removeOldest (removeOldest s) = Nat.iter (S m) removeOldest s.
Proof. induction m as [|m IH]; [reflexivity|]. rewrite !Nat.iter_succ in *. now rewrite IH. Qed.

(** The loop of [evictOldestUntilRoom] removes the oldest entry while its
    guard holds, and the iterations it is given are enough for the guard to
    fail at the end. *)
Lemma evictLoop_spec n : forall s newSize,
  (List.length (s_traces s) <= n)%nat ->
  exists m,
    evictLoop n s newSize = Nat.iter m removeOldest s /\
    noRoom (evictLoop n s newSize) newSize = false /\
    forall j, (j < m)%nat -> noRoom (Nat.iter j removeOldest s) newSize = true.
Proof.
  induction n as [|n IH]; intros s newSize Hlen.
  - exists O. cbn [evictLoop]. change (Nat.iter 0 removeOldest s) with s.
    repeat split; [|intros; lia].
    unfold noRoom, len. destruct (s_traces s); [reflexivity|simpl in Hlen; lia].
  - cbn [evictLoop]. destruct (noRoom s newSize) eqn:R.
    + destruct (IH (removeOldest s) newSize) as (m & E & Hend & Hbefore).
      { rewrite removeOldest_traces, length_skipn. lia. }
      exists (S m). rewrite E, iter_removeOldest_shift. repeat split.
      * rewrite <- iter_removeOldest_shift, <- E. exact Hend.
      * intros [|j] Hj; [exact R|].
        rewrite <- iter_removeOldest_shift. apply Hbefore. lia.
    + exists O. change (Nat.iter 0 removeOldest s) with s.
      repeat split; [exact R|intros; lia].
Qed.

Lemma evictOldestUntilRoom_spec s newSize :
  exists m,
    evictOldestUntilRoom s newSize = Nat.iter m removeOldest s /\
    noRoom (evictOldestUntilRoom s newSize) newSize = false /\
    forall j, (j < m)%nat -> noRoom (Nat.iter j removeOldest s) newSize = true.
Proof. apply evictLoop_spec. lia. Qed.

Lemma AddTraces_steps s t now :
  let est := estimateSize t (countSpans t) in
  let s2 := countCapStep (byteCapStep s est) in
  AddTraces s t now
  = mkStorage (s_traces s2 ++ [mkEntry t now est]) (config s2)
      (add64 (totalSizeBytes s2) est)
      (wrapInt (totalSpanCount s2 + countSpans t))
      (droppedTraces s2) (droppedOldest s2).
Proof. reflexivity. Qed.

Lemma byteCapStep_iter s est :
  exists m, byteCapStep s est = Nat.iter m removeOldest s.
Proof.
  unfold byteCapStep. destruct (0 <? MaxMemoryMB (config s)); [|now exists O].
  destruct (maxBytesOf (config s) <? add64 (totalSizeBytes s) est); [|now exists O].
  destruct (evictOldestUntilRoom_spec s est) as (m & E & _). now exists m.
Qed.

Lemma countCapStep_iter s :
  exists m, countCapStep s = Nat.iter m removeOldest s.
Proof.
  unfold countCapStep. destruct (_ && _); [now exists 1%nat|now exists O].
Qed.

Lemma byteCapStep_config s est : config (byteCapStep s est) = config s.
Proof. destruct (byteCapStep_iter s est) as [m ->]. apply iter_removeOldest_config. Qed.

Lemma countCapStep_config s : config (countCapStep s) = config s.
Proof. destruct (countCapStep_iter s) as [m ->]. apply iter_removeOldest_config. Qed.

Lemma AddTraces_config s t now : config (AddTraces s t now) = config s.
Proof. rewrite AddTraces_steps. cbn. now rewrite countCapStep_config, byteCapStep_config. Qed.

Lemma iter_removeOldest_droppedTraces m s :
  droppedTraces (Nat.iter m removeOldest s) = droppedTraces s.
Proof.
  induction m as [|m IH]; [reflexivity|].
  now rewrite Nat.iter_succ, removeOldest_droppedTraces.
Qed.

(** Removing the oldest entry [m] times counts, in [droppedOldest], the
    entries that were there to remove. *)
Lemma iter_removeOldest_dropped m s :
  inInt64 (droppedOldest s) ->
  droppedOldest (Nat.iter m removeOldest s)
  = wrapInt (droppedOldest s + len (s_traces s) - len (skipn m (s_traces s))).
Proof.
  intros Hd. induction m as [|m IH].
  - cbn [Nat.iter skipn]. change (Nat.iter 0 removeOldest s) with s.
    rewrite skipn_O. rewrite <- (wrapInt_small _ Hd) at 1. f_equal. lia.
  - rewrite Nat.iter_succ. unfold removeOldest at 1.
    pose proof (iter_removeOldest_traces m s) as T.
    destruct (s_traces (Nat.iter m removeOldest s)) as [|e es] eqn:E.
    + rewrite IH. f_equal. assert (skipn (S m) (s_traces s) = []) as ->.
      { apply skipn_all2. symmetry in T. apply (f_equal (@List.length _)) in T.
        rewrite length_skipn in T. simpl in T. lia. }
      rewrite <- T. reflexivity.
    + cbn [droppedOldest]. rewrite IH, wrapInt_add_l. f_equal.
      assert (skipn (S m) (s_traces s) = es) as ->.
      { replace (S m) with (1 + m)%nat by lia. rewrite <- skipn_skipn, <- T. reflexivity. }
      rewrite <- T. unfold len. cbn [List.length]. lia.
Qed.

(** ** The drop counters *)

Lemma iter_removeOldest_dropInv m n s :
  dropInv n s -> dropInv n (Nat.iter m removeOldest s).
Proof.
  intros [H0 Hd]. split.
  - now rewrite iter_removeOldest_droppedTraces.
  - rewrite iter_removeOldest_dropped by (rewrite Hd; apply wrap64_range).
    rewrite iter_removeOldest_traces, Hd.
    replace (wrapInt (n - len (s_traces s)) + len (s_traces s)
             - len (skipn m (s_traces s)))
      with (wrapInt (n - len (s_traces s))
            + (len (s_traces s) - len (skipn m (s_traces s)))) by lia.
    rewrite wrapInt_add_l. f_equal. lia.
Qed.

Lemma AddTraces_dropInv n s t now :
  dropInv n s -> dropInv (n + 1) (AddTraces s t now).
Proof.
  intros H. unfold AddTraces.
  set (est := estimateSize t (countSpans t)).
  destruct (byteCapStep_iter s est) as [m1 E1].
  destruct (countCapStep_iter (byteCapStep s est)) as [m2 E2].
  assert (H2 : dropInv n (countCapStep (byteCapStep s est))).
  { rewrite E2, E1. now apply iter_removeOldest_dropInv, iter_removeOldest_dropInv. }
  destruct H2 as [H0 Hd]. split; cbn [droppedTraces droppedOldest s_traces].
  - exact H0.
  - rewrite Hd, len_app. f_equal. change (len [_]) with 1. lia.
Qed.

Lemma expire_dropInv n s now :
  dropInv n s -> dropInv n (expireOldTracesLocked s now).
Proof.
  intros [H0 Hd]. destruct (Z_lt_le_dec 0 (TraceExpiration (config s))) as [Hpos|Hoff].
  - destruct (expire_spec s now Hpos) as (I1 & _ & I4 & _ & _ & I7).
    split; [now rewrite I4|].
    rewrite I7 by (rewrite Hd; apply wrap64_range).
    rewrite I1, Hd, wrapInt_add_l. f_equal.
    set (cutoff := now - TraceExpiration (config s)).
    pose proof (len_split_filter (fresh cutoff) (s_traces s)) as L.
    fold (stale cutoff) in L. lia.
  - rewrite expire_off by assumption. now split.
Qed.

Lemma step_dropInv n s o :
  dropInv n s -> dropInv (n + (if isAdd o then 1 else 0)) (step s o).
Proof.
  destruct o as [t now|now|]; cbn [isAdd step GetTraces fst]; intros H.
  - now apply AddTraces_dropInv.
  - rewrite Z.add_0_r. now apply expire_dropInv.
  - now rewrite Z.add_0_r.
Qed.

Lemma run_dropInv ops : forall n s,
  dropInv n s -> dropInv (n + len (List.filter isAdd ops)) (run s ops).
Proof.
  unfold run. induction ops as [|o ops IH]; intros n s H.
  - cbn. change (len []) with 0. now rewrite Z.add_0_r.
  - cbn [fold_left List.filter]. apply (step_dropInv n s o) in H.
    apply IH in H. destruct (isAdd o).
    + unfold len in *. cbn [List.length].
      replace (n + Z.of_nat (S (List.length (List.filter isAdd ops))))
        with (n + 1 + Z.of_nat (List.length (List.filter isAdd ops))) by lia.
      exact H.
    + now rewrite Z.add_0_r in H.
Qed.

Lemma new_dropInv c : dropInv 0 (NewTraceStorage c).
Proof. split; reflexivity. Qed.

(** C10: in every state that a sequence of operations reaches from a new
    store, [droppedTraces] (the third value of [GetStats]) is 0; the entries
    removed by the limits and by expiry are all counted in [droppedOldest],
    which is the number of batches admitted less the number retained. *)
Theorem droppedTraces_never_incremented (c : Config) (ops : list Op) :
  let s := run (NewTraceStorage c) ops in
  droppedTraces s = 0 /\
  st_droppedTraces (GetStats s) = 0 /\
  droppedOldest s = wrapInt (len (List.filter isAdd ops) - len (s_traces s)) /\
  st_droppedOldest (GetStats s) = droppedOldest s.
Proof.
  cbn zeta. pose proof (run_dropInv ops 0 _ (new_dropInv c)) as [H0 Hd].
  rewrite Z.add_0_l in Hd. repeat split; assumption.
Qed.

Lemma Forall_skipn {A} (P : A -> Prop) n (l : list A) :
  List.Forall P l -> List.Forall P (skipn n l).
Proof.
  revert l. induction n as [|n IH]; intros l H; [exact H|].
  destruct l as [|x l]; [constructor|]. simpl. apply IH. now inversion H.
Qed.

Lemma Forall_filter_keep {A} (P : A -> Prop) (p : A -> bool) (l : list A) :
  List.Forall P l -> List.Forall P (List.filter p l).
Proof.
  induction 1 as [|x l Hx Hl IH]; simpl; [constructor|].
  destruct (p x); [constructor|]; assumption.
Qed.

Lemma step_sized s o :
  List.Forall sizedByContent (s_traces s) ->
  List.Forall sizedByContent (s_traces (step s o)).
Proof.
  intros H. destruct o as [t now|now|]; cbn [step GetTraces fst]; [| |exact H].
  - unfold AddTraces. cbn [s_traces].
    destruct (byteCapStep_iter s (estimateSize t (countSpans t))) as [m1 E1].
    destruct (countCapStep_iter (byteCapStep s (estimateSize t (countSpans t))))
      as [m2 E2].
    rewrite E2, E1, !iter_removeOldest_traces.
    apply Forall_app_2; [now apply Forall_skipn, Forall_skipn|].
    constructor; [reflexivity|constructor].
  - destruct (Z_lt_le_dec 0 (TraceExpiration (config s))) as [Hpos|Hoff].
    + destruct (expire_spec s now Hpos) as (I1 & _). rewrite I1.
      now apply Forall_filter_keep.
    + now rewrite expire_off.
Qed.

Lemma run_sized ops : forall s,
  List.Forall sizedByContent (s_traces s) ->
  List.Forall sizedByContent (s_traces (run s ops)).
Proof.
  unfold run. induction ops as [|o ops IH]; intros s H; [exact H|].
  cbn [fold_left]. apply IH, step_sized, H.
Qed.

(** C3: in every state that a sequence of [AddTraces] and [GetTraces] calls
    reaches from a new store, under any limits, [totalSizeBytes] and
    [totalSpanCount] are the sums recomputed over the retained entries, each
    of which carries the size estimated from its content; the same holds
    after a removal of the oldest entry, after an eviction for room and
    after an expiry in such a state. *)
Theorem totals_equal_recomputation (c : Config) (ops : list Op) (newSize now : Z) :
  let s := run (NewTraceStorage c) ops in
  (totalSizeBytes s = recomputeBytes (s_traces s) /\
   totalSpanCount s = recomputeSpans (s_traces s)) /\
  st_memoryBytes (GetStats s) = recomputeBytes (s_traces s) /\
  st_spans (GetStats s) = recomputeSpans (s_traces s) /\
  List.Forall sizedByContent (s_traces s) /\
  accounted (removeOldest s) /\
  accounted (evictOldestUntilRoom s newSize) /\
  accounted (expireOldTracesLocked s now).
Proof.
  cbn zeta.
  assert (H : accounted (run (NewTraceStorage c) ops)).
  { apply run_accounted. split; reflexivity. }
  split; [exact H|]. split; [apply H|]. split; [apply H|].
  split; [apply run_sized; constructor|].
  split; [now apply removeOldest_accounted|].
  split; [now apply evictLoop_accounted|now apply expire_accounted].
Qed.

(** ** The count limit *)

Lemma byteCapStep_off s est :
  MaxMemoryMB (config s) <= 0 -> byteCapStep s est = s.
Proof.
  intros H. unfold byteCapStep.
  destruct (0 <? MaxMemoryMB (config s)) eqn:E; [lia|reflexivity].
Qed.

(** With the count limit [N] alone, an admission into a store of fewer than
    [N] entries adds one, and an admission into a store of [N] replaces the
    oldest. *)
Lemma AddTraces_count_cap s t now :
  MaxMemoryMB (config s) <= 0 ->
  1 <= MaxTraces (config s) ->
  len (s_traces s) <= MaxTraces (config s) ->
  len (s_traces (AddTraces s t now))
  = Z.min (MaxTraces (config s)) (len (s_traces s) + 1).
Proof.
  intros Hmem HN Hlen. unfold AddTraces. cbn [s_traces].
  rewrite byteCapStep_off by assumption. unfold countCapStep.
  rewrite len_app. change (len [_]) with 1.
  destruct (0 <? MaxTraces (config s)) eqn:E0; [|lia]. cbn [andb].
  destruct (MaxTraces (config s) <=? len (s_traces s)) eqn:E1.
  - rewrite removeOldest_traces. unfold len in *. rewrite length_skipn. lia.
  - lia.
Qed.




(** ** The memory limit *)



(** ** Expiry on a snapshot *)

(** C9, as the code has it: with a positive expiration, [GetTraces] keeps
    exactly the entries whose timestamp is after [now - TraceExpiration]
    and removes the others, the one at the cutoff included; it subtracts the
    sizes and span counts of the removed entries and adds their number to
    [droppedOldest]; with an expiration of 0 (or less) it changes nothing. *)
Theorem expiry_keeps_entries_after_cutoff (s : TraceStorage) (now : Z) :
  wellTyped s ->
  let s' := fst (GetTraces s now) in
  let cutoff := now - TraceExpiration (config s) in
  let expired := List.filter (stale cutoff) (s_traces s) in
  (0 < TraceExpiration (config s) ->
   s_traces s' = List.filter (fresh cutoff) (s_traces s) /\
   (forall e, In e (s_traces s) -> (In e (s_traces s') <-> cutoff < timestamp e)) /\
   snd (GetTraces s now) = map traces (List.filter (fresh cutoff) (s_traces s)) /\
   totalSizeBytes s' = wrap64 (totalSizeBytes s - sumWith sizeBytes expired) /\
   totalSpanCount s' = wrapInt (totalSpanCount s - sumWith spansOfEntry expired) /\
   droppedOldest s' = wrapInt (droppedOldest s + len expired) /\
   (droppedOldest s + len expired <= maxInt64 ->
    droppedOldest s' = droppedOldest s + len expired) /\
   droppedTraces s' = droppedTraces s) /\
  (TraceExpiration (config s) <= 0 -> s' = s).
Proof.
  intros (Wb & Ws & Wt & Wd) s' cutoff expired. subst s'. cbn [GetTraces fst snd].
  split.
  - intros Hpos. destruct (expire_spec s now Hpos) as (I1 & I3 & I4 & I5 & I6 & I7).
    fold cutoff in I1, I5, I6, I7. fold expired in I5, I6, I7.
    split; [exact I1|]. split.
    { intros e He. rewrite I1, filter_In. unfold fresh. split.
      - intros [_ H]. lia.
      - intros H. split; [exact He|]. apply Z.ltb_lt. exact H. }
    split; [now rewrite I1|]. split; [now apply I5|]. split; [now apply I6|].
    split; [now apply I7|]. split; [|exact I4].
    intros Hfit. rewrite I7 by assumption. apply wrapInt_small.
    unfold inInt64, minInt64, maxInt64 in *. pose proof (len_nonneg expired). lia.
  - intros Hoff. now apply expire_off.
Qed.

(** C9, the case the claim gets wrong: an entry whose timestamp is exactly
    [now - TraceExpiration] is not older than that, and is removed. *)
Lemma expiry_removes_entry_at_cutoff :
  s_traces storeAt100 = [mkEntry oneSpanBatch 100 1624] /\
  TraceExpiration (config storeAt100) = 10 /\
  List.Forall (fun e => ~ timestamp e < 110 - 10) (s_traces storeAt100) /\
  s_traces (fst (GetTraces storeAt100 110)) = [] /\
  droppedOldest (fst (GetTraces storeAt100 110)) = 1.
Proof.
  split; [reflexivity|]. split; [reflexivity|]. split.
  - constructor; [cbn; lia|constructor].
  - split; reflexivity.
Qed.

(** ** The runtimes *)

Section InsertionSort.
Context {A : Type} (key : A -> Z).

Lemma bubble_perm (lt : A -> A -> bool) x p :
  Permutation (bubble lt x p) (x :: p).
Proof.
  induction p as [|y rest IH]; cbn [bubble]; [reflexivity|].
  destruct (lt x y); [|reflexivity].
  rewrite IH. apply perm_swap.
Qed.

Lemma bubble_sorted x p :
  StronglySorted (descBy key) p ->
  StronglySorted (descBy key) (bubble (lessBy key) x p).
Proof.
  induction 1 as [|y rest Hrest IH Hy]; cbn [bubble].
  - repeat constructor.
  - unfold lessBy at 1. destruct (key x <? key y) eqn:E.
    + constructor; [exact IH|].
      rewrite (bubble_perm _ x rest). constructor; [|exact Hy].
      unfold descBy. lia.
    + constructor; [constructor; assumption|].
      constructor; [unfold descBy; lia|].
      eapply Forall_impl; [exact Hy|]. unfold descBy. cbn beta. intros; lia.
Qed.

Lemma StronglySorted_rev_desc l :
  StronglySorted (descBy key) l -> StronglySorted (ascBy key) (rev l).
Proof.
  induction 1 as [|y rest Hrest IH Hy]; cbn [rev]; [constructor|].
  apply StronglySorted_app_2; [|exact IH|repeat constructor].
  intros a b Ha Hb. apply list_elem_of_In in Ha. apply in_rev in Ha.
  apply list_elem_of_In in Hb. destruct Hb as [<-|[]].
  rewrite Forall_forall in Hy. apply Hy. now apply list_elem_of_In.
Qed.

Lemma insertion_fold_sorted l : forall p,
  StronglySorted (descBy key) p ->
  StronglySorted (descBy key) (fold_left (fun p x => bubble (lessBy key) x p) l p).
Proof.
  induction l as [|x l IH]; intros p Hp; cbn [fold_left]; [exact Hp|].
  apply IH, bubble_sorted, Hp.
Qed.

Lemma insertionSort_sorted l :
  StronglySorted (ascBy key) (insertionSort A (lessBy key) l).
Proof.
  unfold insertionSort. apply StronglySorted_rev_desc, insertion_fold_sorted.
  constructor.
Qed.

End InsertionSort.

Lemma insertion_fold_perm {A} (lt : A -> A -> bool) l : forall p,
  Permutation (fold_left (fun p x => bubble lt x p) l p) (rev l ++ p).
Proof.
  induction l as [|x l IH]; intros p; cbn [fold_left rev]; [reflexivity|].
  rewrite IH, bubble_perm, <- app_assoc. apply Permutation_app_head.
  reflexivity.
Qed.

Lemma insertionSort_perm {A} (lt : A -> A -> bool) l :
  Permutation (insertionSort A lt l) l.
Proof.
  unfold insertionSort. rewrite <- Permutation_rev, insertion_fold_perm.
  rewrite app_nil_r. symmetry. apply Permutation_rev.
Qed.

Lemma runtimeFwd_ok : RuntimeOK runtimeFwd.
Proof.
  constructor; cbn [sortSlice rangeTraces rangeSpans runtimeFwd]; intros.
  - apply insertionSort_perm.
  - apply (insertionSort_sorted key).
  - reflexivity.
  - reflexivity.
Qed.

Lemma runtimeRev_ok : RuntimeOK runtimeRev.
Proof.
  constructor; cbn [sortSlice rangeTraces rangeSpans runtimeRev]; intros.
  - apply insertionSort_perm.
  - apply (insertionSort_sorted key).
  - symmetry. apply Permutation_rev.
  - symmetry. apply Permutation_rev.
Qed.

(** ** Grouping by trace id *)

Lemma fold_left_flat_map {A B C} (f : A -> B -> A) (g : C -> list B) l : forall a,
  fold_left f (flat_map g l) a = fold_left (fun a x => fold_left f (g x) a) l a.
Proof.
  induction l as [|x l IH]; intros a; cbn [flat_map fold_left]; [reflexivity|].
  now rewrite fold_left_app, IH.
Qed.

Lemma fold_left_map {A B C} (f : A -> B -> A) (h : C -> B) l : forall a,
  fold_left f (map h l) a = fold_left (fun a x => f a (h x)) l a.
Proof. induction l as [|x l IH]; intros a; cbn; [reflexivity|apply IH]. Qed.

Lemma fold_left_ext {A B} (f g : A -> B -> A) l :
  (forall a x, f a x = g a x) -> forall a, fold_left f l a = fold_left g l a.
Proof.
  intros H. induction l as [|x l IH]; intros a; cbn; [reflexivity|].
  now rewrite H, IH.
Qed.

Lemma groupEntry_flat tm e :
  groupEntry tm e = fold_left addSpan (entrySpanInfos e) tm.
Proof.
  unfold groupEntry, entrySpanInfos. rewrite fold_left_flat_map.
  revert tm. apply fold_left_ext. intros tm1 rs. unfold groupResource.
  rewrite fold_left_flat_map. revert tm1. apply fold_left_ext. intros tm2 ss.
  unfold groupScope. now rewrite fold_left_map.
Qed.

Lemma groupTraces_flat entries :
  groupTraces entries = fold_left addSpan (allSpanInfos entries) ∅.
Proof.
  unfold groupTraces, allSpanInfos. rewrite fold_left_flat_map.
  apply fold_left_ext. intros tm e. apply groupEntry_flat.
Qed.

Lemma filter_snoc {A} (p : A -> bool) l x :
  List.filter p (l ++ [x]) = List.filter p l ++ (if p x then [x] else []).
Proof. now rewrite List.filter_app. Qed.

Lemma groupOf_None T l : groupOf T l = None <-> List.filter (hasTrace T) l = [].
Proof. unfold groupOf. destruct (List.filter (hasTrace T) l); split; congruence. Qed.

Lemma groupOf_Some T l ti :
  groupOf T l = Some ti ->
  ti = mkTraceInfo T (List.filter (hasTrace T) l) /\ List.filter (hasTrace T) l <> [].
Proof.
  unfold groupOf. destruct (List.filter (hasTrace T) l); [discriminate|].
  intros [= <-]. split; [reflexivity|discriminate].
Qed.

Lemma groupOf_nonempty T l :
  List.filter (hasTrace T) l <> [] ->
  groupOf T l = Some (mkTraceInfo T (List.filter (hasTrace T) l)).
Proof. unfold groupOf. destruct (List.filter (hasTrace T) l); congruence. Qed.

(** One more span: its trace gets it appended, the others are untouched. *)
Lemma addSpan_grouped l (m : gmap string traceInfo) si :
  (forall T, m !! T = groupOf T l) ->
  forall T, addSpan m si !! T = groupOf T (l ++ [si]).
Proof.
  intros H T. unfold addSpan. set (tid := TraceID (span si)).
  assert (Hsnoc : forall U, List.filter (hasTrace U) (l ++ [si])
            = List.filter (hasTrace U) l ++ (if String.eqb tid U then [si] else [])).
  { intros U. rewrite (filter_snoc (hasTrace U) l si). reflexivity. }
  destruct (m !! tid) as [ti|] eqn:E.
  - rewrite E. rewrite H in E. apply groupOf_Some in E. destruct E as [-> Hne].
    cbn [traceID spans]. destruct (String.eqb_spec tid T) as [<-|Hneq].
    + rewrite lookup_insert_eq. symmetry.
      rewrite groupOf_nonempty; rewrite Hsnoc, String.eqb_refl.
      * reflexivity.
      * intros C. now apply app_eq_nil in C.
    + rewrite lookup_insert_ne by assumption. rewrite H. unfold groupOf.
      rewrite Hsnoc. apply String.eqb_neq in Hneq. rewrite Hneq.
      now rewrite app_nil_r.
  - rewrite lookup_insert_eq. cbn [traceID spans app]. rewrite H in E.
    apply groupOf_None in E. destruct (String.eqb_spec tid T) as [<-|Hneq].
    + rewrite lookup_insert_eq. unfold groupOf.
      now rewrite Hsnoc, E, String.eqb_refl.
    + rewrite !lookup_insert_ne by assumption. rewrite H. unfold groupOf.
      rewrite Hsnoc. apply String.eqb_neq in Hneq. rewrite Hneq.
      now rewrite app_nil_r.
Qed.

Lemma fold_addSpan_grouped l : forall l0 (m : gmap string traceInfo),
  (forall T, m !! T = groupOf T l0) ->
  forall T, fold_left addSpan l m !! T = groupOf T (l0 ++ l).
Proof.
  induction l as [|si l IH]; intros l0 m H T; cbn [fold_left].
  - now rewrite app_nil_r.
  - replace (l0 ++ si :: l) with ((l0 ++ [si]) ++ l) by now rewrite <- app_assoc.
    apply IH. now apply addSpan_grouped.
Qed.

(** The trace map after the grouping loops: one entry for every trace id
    that occurs, holding all the spans of that trace in the order of the
    loops. *)
Lemma groupTraces_lookup entries T :
  groupTraces entries !! T = groupOf T (allSpanInfos entries).
Proof.
  rewrite groupTraces_flat.
  apply (fold_addSpan_grouped (allSpanInfos entries) [] ∅).
  intros U. now rewrite lookup_empty.
Qed.


Lemma groupTraces_entry entries k v :
  In (k, v) (map_to_list (groupTraces entries)) ->
  v = mkTraceInfo k (List.filter (hasTrace k) (allSpanInfos entries)) /\
  List.filter (hasTrace k) (allSpanInfos entries) <> [].
Proof.
  intros H. apply list_elem_of_In, elem_of_map_to_list in H.
  rewrite groupTraces_lookup in H. now apply groupOf_Some.
Qed.

Lemma groupTraces_ids entries :
  map traceID (map snd (map_to_list (groupTraces entries)))
  = map fst (map_to_list (groupTraces entries)).
Proof.
  rewrite map_map. apply map_ext_in. intros [k v] H.
  apply groupTraces_entry in H. destruct H as [-> _]. reflexivity.
Qed.

Lemma sortTraces_perm rt tm :
  RuntimeOK rt -> Permutation (sortTraces rt tm) (map snd (map_to_list tm)).
Proof.
  intros OK. unfold sortTraces. rewrite (sort_perm rt OK).
  apply Permutation_map, (rangeTraces_perm rt OK).
Qed.


(** The map from span id to span that [buildSpanTree] fills: the last span
    with an id wins. *)
Lemma fold_insert_last l : forall (m : gmap string spanInfo) id,
  fold_left (fun m si => <[SpanID (span si) := si]> m) l m !! id
  = match last (List.filter (hasSpanID id) l) with
    | Some si => Some si
    | None => m !! id
    end.
Proof.
  induction l as [|si l IH]; intros m id; cbn [fold_left List.filter]; [reflexivity|].
  rewrite IH. unfold hasSpanID at 2.
  destruct (String.eqb_spec (SpanID (span si)) id) as [E|E].
  - rewrite last_cons. destruct (last (List.filter (hasSpanID id) l)); [reflexivity|].
    subst id. apply lookup_insert_eq.
  - destruct (last (List.filter (hasSpanID id) l)); [reflexivity|].
    now apply lookup_insert_ne.
Qed.

Lemma spanMapOf_lookup l id :
  spanMapOf l !! id = last (List.filter (hasSpanID id) l).
Proof.
  unfold spanMapOf. rewrite fold_insert_last, lookup_empty.
  now destruct (last _).
Qed.



(** ** The order of the traces *)

Lemma earliest_fold_le l : forall e0,
  let e := fold_left (fun earliest si =>
                        if startOf si <? earliest then startOf si else earliest) l e0 in
  e <= e0 /\ (forall si, In si l -> e <= startOf si) /\
  (e = e0 \/ exists si, In si l /\ e = startOf si).
Proof.
  induction l as [|x l IH]; intros e0; cbn [fold_left].
  - cbn zeta. split; [lia|]. split; [intros si []|now left].
  - cbn zeta. specialize (IH (if startOf x <? e0 then startOf x else e0)).
    cbn zeta in IH. destruct IH as (I1 & I2 & I3).
    destruct (startOf x <? e0) eqn:E.
    + apply Z.ltb_lt in E. split; [lia|]. split.
      * intros si [<-|H]; [lia|now apply I2].
      * right. destruct I3 as [I3|(si & Hsi & I3)].
        -- exists x. split; [now left|exact I3].
        -- exists si. split; [now right|exact I3].
    + apply Z.ltb_ge in E. split; [lia|]. split.
      * intros si [<-|H]; [lia|now apply I2].
      * destruct I3 as [I3|(si & Hsi & I3)]; [now left|].
        right. exists si. split; [now right|exact I3].
Qed.

(** [getEarliestTime] is the least start time of the spans of a trace. *)
Lemma getEarliestTime_min ti :
  spans ti <> [] ->
  (forall si, In si (spans ti) -> getEarliestTime ti <= startOf si) /\
  (exists si, In si (spans ti) /\ getEarliestTime ti = startOf si).
Proof.
  unfold getEarliestTime. destruct (spans ti) as [|s0 rest]; [congruence|].
  intros _. pose proof (earliest_fold_le rest (startOf s0)) as H.
  cbn zeta in H. destruct H as (I1 & I2 & I3). split.
  - intros si [<-|H]; [exact I1|now apply I2].
  - destruct I3 as [I3|(si & Hsi & I3)].
    + exists s0. split; [now left|exact I3].
    + exists si. split; [now right|exact I3].
Qed.

Lemma sortTraces_sorted rt tm :
  RuntimeOK rt -> StronglySorted earliestLe (sortTraces rt tm).
Proof. intros OK. apply (sort_sorted rt OK traceInfo getEarliestTime). Qed.

(** C8, as the code has it: the traces come out in ascending order of
    their earliest start time, which is the least start time of their
    spans; traces with the same earliest start time are in no fixed order,
    and the output is the same in every run when the earliest start times
    differ from trace to trace. *)
Theorem traces_ordered_by_earliest_start (rt : Runtime) (entries : list traceEntry) :
  RuntimeOK rt ->
  let tm := groupTraces entries in
  let out := sortTraces rt tm in
  Permutation out (map snd (map_to_list tm)) /\
  StronglySorted earliestLe out /\
  (forall ti, In ti out ->
     (forall si, In si (spans ti) -> getEarliestTime ti <= startOf si) /\
     (exists si, In si (spans ti) /\ getEarliestTime ti = startOf si)) /\
  (forall rt', RuntimeOK rt' ->
     (forall a b, In a out -> In b out ->
        getEarliestTime a = getEarliestTime b -> a = b) ->
     sortTraces rt' tm = out).
Proof.
  intros OK tm out.
  pose proof (sortTraces_perm rt tm OK) as P. fold out in P.
  split; [exact P|]. split; [now apply sortTraces_sorted|]. split.
  - intros ti Hti. apply getEarliestTime_min.
    apply (Permutation_in _ P) in Hti. apply in_map_iff in Hti.
    destruct Hti as ([k v] & <- & Hkv). apply groupTraces_entry in Hkv.
    destruct Hkv as [-> Hne]. exact Hne.
  - intros rt' OK' Hdistinct.
    apply (StronglySorted_unique_strong earliestLe).
    + intros a b Ha Hb Hab Hba. apply list_elem_of_In in Ha, Hb.
      apply Hdistinct; [|exact Hb|unfold earliestLe in *; lia].
      apply (Permutation_in _ (sortTraces_perm rt' tm OK')) in Ha.
      now apply (Permutation_in _ (Permutation_sym P)).
    + now apply sortTraces_sorted.
    + now apply sortTraces_sorted.
    + rewrite P. now apply sortTraces_perm.
Qed.

(** C8, where the claim fails: two traces start at the same time; one run
    writes them in the order of their ids, another in the opposite order. *)
Lemma equal_start_times_not_ordered_by_id :
  RuntimeOK runtimeRev /\ RuntimeOK runtimeFwd /\
  map traceID (orderedTraces runtimeRev tieStore) = ["b"; "a"]%string /\
  map getEarliestTime (orderedTraces runtimeRev tieStore) = [5; 5] /\
  String.ltb "a" "b" = true /\
  map traceID (orderedTraces runtimeFwd tieStore) = ["a"; "b"]%string.
Proof.
  split; [exact runtimeRev_ok|]. split; [exact runtimeFwd_ok|].
  repeat split; vm_compute; reflexivity.
Qed.

(** ** The span tree *)

Lemma spanTreeNode_forall_ind (P : spanTreeNode -> Prop) :
  (forall i kids d, List.Forall P kids -> P (Node i kids d)) ->
  forall t, P t.
Proof.
  intros H. fix IH 1. intros [i kids d]. apply H.
  induction kids as [|k kids IHk]; constructor; [apply IH|exact IHk].
Qed.

Lemma Permutation_list_filter {A} (p : A -> bool) l l' :
  Permutation l l' -> Permutation (List.filter p l) (List.filter p l').
Proof.
  induction 1 as [|x l l' H IH|x y l|l l' l'' H1 IH1 H2 IH2]; cbn [List.filter].
  - constructor.
  - destruct (p x); [now constructor|exact IH].
  - destruct (p x), (p y); try reflexivity. apply perm_swap.
  - now transitivity (List.filter p l').
Qed.

Lemma candidates_perm rt p d m :
  RuntimeOK rt ->
  Permutation (candidates rt p d m) (List.filter (isChildOf p) (mapSpans m)).
Proof.
  intros OK. apply Permutation_list_filter, Permutation_map, (rangeSpans_perm rt OK).
Qed.

Lemma candidates_In rt p d m c :
  RuntimeOK rt ->
  In c (candidates rt p d m) <-> In c (mapSpans m) /\ ParentSpanID (span c) = p.
Proof.
  intros OK. split; intros H.
  - apply (Permutation_in _ (candidates_perm rt p d m OK)) in H.
    apply filter_In in H. destruct H as [H1 H2]. apply String.eqb_eq in H2.
    now split.
  - apply (Permutation_in _ (Permutation_sym (candidates_perm rt p d m OK))).
    destruct H as [H1 H2]. apply filter_In. split; [exact H1|].
    now apply String.eqb_eq.
Qed.

Lemma buildChildren_S rt fuel si d m :
  buildChildren rt (S fuel) si d m
  = match mapM (fun c => buildChildren rt fuel c (wrapInt (d + 1)) m)
            (candidates rt (SpanID (span si)) d m) with
    | None => None
    | Some kids => Some (Node si (sortSlice rt spanTreeNode lessStart kids) d)
    end.
Proof. reflexivity. Qed.

(** A call that returned, opened: the children it collected, [kids], and
    the tree it built from them. *)
Ltac one_call H kids E :=
  rewrite buildChildren_S in H;
  destruct (mapM _ _) as [kids|] eqn:E; [|discriminate];
  injection H as <-.




(** *** The id map *)

Lemma mapSpans_In (m : gmap string spanInfo) v :
  In v (mapSpans m) <-> exists k, m !! k = Some v.
Proof.
  unfold mapSpans. rewrite in_map_iff. split.
  - intros ([k v'] & <- & H). exists k.
    now apply elem_of_map_to_list, list_elem_of_In.
  - intros [k H]. exists (k, v). split; [reflexivity|].
    now apply list_elem_of_In, elem_of_map_to_list.
Qed.

Lemma mapSpans_keyed_lookup (m : gmap string spanInfo) v :
  keyed m -> In v (mapSpans m) -> m !! SpanID (span v) = Some v.
Proof.
  intros K H. apply mapSpans_In in H. destruct H as [k H].
  now rewrite (K k v H).
Qed.

Lemma mapSpans_NoDup (m : gmap string spanInfo) :
  keyed m -> List.NoDup (mapSpans m).
Proof.
  intros K. apply NoDup_ListNoDup. unfold mapSpans.
  apply (NoDup_fmap_2_strong snd).
  - intros [k v] [k' v'] H H' E. cbn in E. subst v'.
    apply elem_of_map_to_list in H, H'.
    now rewrite <- (K k v H), <- (K k' v H').
  - apply NoDup_map_to_list.
Qed.

Lemma last_filter_In {A} (p : A -> bool) (l : list A) x :
  last (List.filter p l) = Some x -> In x l /\ p x = true.
Proof.
  intros H. apply last_Some_elem_of, list_elem_of_In in H.
  now apply filter_In in H.
Qed.

Lemma spanMapOf_keyed l : keyed (spanMapOf l).
Proof.
  intros k v H. rewrite spanMapOf_lookup in H.
  apply last_filter_In in H. destruct H as [_ H].
  now apply String.eqb_eq in H.
Qed.



(** *** Termination without a cycle *)



(** *** Parent links *)

Lemma ancestor_snoc m j : forall y z w,
  ancestor m j y = Some z -> parentKey m z = Some w ->
  ancestor m (S j) y = Some w.
Proof.
  induction j as [|j IH]; intros y z w H Hz.
  - injection H as ->. cbn [ancestor]. now rewrite Hz.
  - cbn [ancestor] in H. destruct (parentKey m y) as [y1|] eqn:E; [|discriminate].
    change (ancestor m (S (S j)) y)
      with (match parentKey m y with
            | Some z => ancestor m (S j) z
            | None => None
            end).
    rewrite E. now apply (IH y1 z w).
Qed.

Lemma ancestor_split m a b : forall y z,
  ancestor m (a + b) y = Some z ->
  exists w, ancestor m a y = Some w /\ ancestor m b w = Some z.
Proof.
  induction a as [|a IH]; intros y z H.
  - exists y. now split.
  - cbn [Nat.add ancestor] in *.
    destruct (parentKey m y) as [y1|]; [|discriminate]. now apply IH.
Qed.

Lemma parentKey_rank m rank y z :
  keyed m -> acyclic rank m -> parentKey m y = Some z -> (rank z < rank y)%nat.
Proof.
  intros K Hacyc H. unfold parentKey in H.
  destruct (m !! y) as [v|] eqn:E; [|discriminate]. injection H as <-.
  pose proof (K y v E) as Hk.
  assert (Hr : (rank (ParentSpanID (span v)) < rank (SpanID (span v)))%nat).
  { apply Hacyc, mapSpans_In. now exists y. }
  now rewrite Hk in Hr.
Qed.

Lemma ancestor_rank m rank :
  keyed m -> acyclic rank m ->
  forall k y z, ancestor m (S k) y = Some z -> (rank z < rank y)%nat.
Proof.
  intros K Hacyc. induction k as [|k IH]; intros y z H.
  - cbn [ancestor] in H. destruct (parentKey m y) as [y1|] eqn:E; [|discriminate].
    injection H as <-. now apply (parentKey_rank m rank y y1).
  - change (ancestor m (S (S k)) y)
      with (match parentKey m y with
            | Some z => ancestor m (S k) z
            | None => None
            end) in H.
    destruct (parentKey m y) as [y1|] eqn:E; [|discriminate].
    apply IH in H. pose proof (parentKey_rank m rank y y1 K Hacyc E). lia.
Qed.

Lemma ancestor_no_loop m rank k y :
  keyed m -> acyclic rank m -> ancestor m (S k) y <> Some y.
Proof.
  intros K Hacyc H. apply (ancestor_rank m rank K Hacyc) in H. lia.
Qed.

(** Two spans with the same parent that are both above one span (or are
    that span) are one. *)
Lemma one_child_above m rank p c1 c2 x j1 j2 :
  keyed m -> acyclic rank m ->
  In c1 (mapSpans m) -> In c2 (mapSpans m) ->
  ParentSpanID (span c1) = p -> ParentSpanID (span c2) = p ->
  ancestor m j1 x = Some (SpanID (span c1)) ->
  ancestor m j2 x = Some (SpanID (span c2)) ->
  c1 = c2.
Proof.
  intros K Hacyc.
  assert (Hlt : forall c1 c2 j1 k,
    In c1 (mapSpans m) -> In c2 (mapSpans m) ->
    ParentSpanID (span c1) = p -> ParentSpanID (span c2) = p ->
    ancestor m j1 x = Some (SpanID (span c1)) ->
    ancestor m (j1 + S k) x = Some (SpanID (span c2)) -> False).
  { clear c1 c2 j1 j2. intros c1 c2 j1 k H1 H2 P1 P2 A1 A2.
    apply ancestor_split in A2. destruct A2 as (w & Aw & A2).
    rewrite A1 in Aw. injection Aw as <-.
    pose proof (mapSpans_keyed_lookup m c1 K H1) as L1.
    pose proof (mapSpans_keyed_lookup m c2 K H2) as L2.
    cbn [ancestor] in A2. unfold parentKey in A2 at 1. rewrite L1, P1 in A2.
    apply (ancestor_snoc m k p _ p) in A2; [|unfold parentKey; now rewrite L2, P2].
    now apply (ancestor_no_loop m rank k p K Hacyc). }
  intros H1 H2 P1 P2 A1 A2.
  destruct (Nat.lt_trichotomy j1 j2) as [L|[E|L]].
  - exfalso. apply (Hlt c1 c2 j1 (j2 - j1 - 1)%nat); try assumption.
    now replace (j1 + S (j2 - j1 - 1))%nat with j2 by lia.
  - subst j2. rewrite A1 in A2. injection A2 as E.
    pose proof (mapSpans_keyed_lookup m c1 K H1) as L1.
    pose proof (mapSpans_keyed_lookup m c2 K H2) as L2.
    rewrite E in L1. congruence.
  - exfalso. apply (Hlt c2 c1 j2 (j1 - j2 - 1)%nat); try assumption.
    now replace (j2 + S (j1 - j2 - 1))%nat with j1 by lia.
Qed.

(** *** The shape of the tree *)

Lemma treeInfos_cons t : treeInfos t = nodeInfo t :: belowRoot t.
Proof. now destruct t. Qed.

Lemma treeSize_length t : treeSize t = List.length (treeInfos t).
Proof.
  induction t as [i kids d IH] using spanTreeNode_forall_ind.
  cbn [treeSize treeInfos List.length]. f_equal.
  induction IH as [|k kids Hk _ IHk]; cbn [map flat_map]; [reflexivity|].
  rewrite length_app, <- Hk, <- IHk. reflexivity.
Qed.


Lemma NoDup_flat_map_Forall2 {A B C} (R : A -> B -> Prop) (f : B -> list C) l ks :
  List.NoDup l -> Forall2 R l ks ->
  (forall a b, In a l -> R a b -> List.NoDup (f b)) ->
  (forall a1 b1 a2 b2 x, In a1 l -> In a2 l -> R a1 b1 -> R a2 b2 ->
     In x (f b1) -> In x (f b2) -> a1 = a2) ->
  List.NoDup (flat_map f ks).
Proof.
  intros Hnd HF. induction HF as [|a b l ks Hab HF IH]; intros H1 H2;
    cbn [flat_map]; [constructor|].
  apply List.NoDup_cons_iff in Hnd. destruct Hnd as [Ha Hnd].
  apply List.NoDup_app.
  - apply (H1 a b); [now left|exact Hab].
  - apply IH; [exact Hnd| |].
    + intros a' b' Ha'. apply H1. now right.
    + intros a1 b1 a2 b2 x I1 I2. apply H2; now right.
  - intros x Hx Hx'. apply in_flat_map in Hx'. destruct Hx' as (b' & Hb' & Hx').
    assert (Hex : exists a', In a' l /\ R a' b').
    { clear -HF Hb'. induction HF as [|a0 b0 l ks H0 HF IH]; [destruct Hb'|].
      destruct Hb' as [<-|Hb'].
      - exists a0. split; [now left|exact H0].
      - destruct (IH Hb') as (a' & I & Ra). exists a'. split; [now right|exact Ra]. }
    destruct Hex as (a' & Ia' & Ra').
    assert (a = a') by (apply (H2 a b a' b' x); auto; [now left|now right]).
    subst a'. contradiction.
Qed.

Lemma candidates_NoDup rt p d m :
  RuntimeOK rt -> keyed m -> List.NoDup (candidates rt p d m).
Proof.
  intros OK K.
  apply (Permutation_NoDup (Permutation_sym (candidates_perm rt p d m OK))).
  apply List.NoDup_filter, mapSpans_NoDup, K.
Qed.

(** The nodes below the root of a tree that [buildChildren] returned are
    distinct spans of the id map, each some parent links below the root. *)
Lemma buildChildren_shape rt m rank :
  RuntimeOK rt -> keyed m -> acyclic rank m ->
  forall fuel si d t,
    buildChildren rt fuel si d m = Some t ->
    nodeInfo t = si /\
    List.NoDup (belowRoot t) /\
    forall x, In x (belowRoot t) ->
      In x (mapSpans m) /\
      exists j, ancestor m (S j) (SpanID (span x)) = Some (SpanID (span si)).
Proof.
  intros OK K Hacyc. induction fuel as [|fuel IH]; intros si d t H; [discriminate|].
  one_call H kids E.
  apply mapM_Some in E. cbn [nodeInfo]. split; [reflexivity|].
  set (p := SpanID (span si)) in *.
  assert (P : Permutation (belowRoot (Node si (sortSlice rt spanTreeNode lessStart kids) d))
                (flat_map treeInfos kids)).
  { unfold belowRoot. cbn [nodeChildren].
    apply Permutation_flat_map, (sort_perm rt OK). }
  (* what the induction hypothesis says of one child and its subtree *)
  assert (Hkid : forall c k, In c (candidates rt p d m) ->
            buildChildren rt fuel c (wrapInt (d + 1)) m = Some k ->
            In c (mapSpans m) /\ ParentSpanID (span c) = p /\
            List.NoDup (treeInfos k) /\
            forall x, In x (treeInfos k) ->
              In x (mapSpans m) /\
              exists j, ancestor m j (SpanID (span x)) = Some (SpanID (span c))).
  { intros c k Hc Hk. apply candidates_In in Hc; [|exact OK].
    destruct Hc as [Hc Hp]. destruct (IH c _ k Hk) as (Hroot & Hnd & Hbelow).
    split; [exact Hc|]. split; [exact Hp|]. rewrite treeInfos_cons, Hroot. split.
    - constructor; [|exact Hnd]. intros Hin. apply Hbelow in Hin.
      destruct Hin as [_ [j Hj]]. now apply (ancestor_no_loop m rank j _ K Hacyc) in Hj.
    - intros x [<-|Hx].
      + split; [exact Hc|]. now exists O.
      + destruct (Hbelow x Hx) as [Hm [j Hj]]. split; [exact Hm|]. now exists (S j). }
  split.
  - apply (Permutation_NoDup (Permutation_sym P)).
    apply (NoDup_flat_map_Forall2
             (fun c k => buildChildren rt fuel c (wrapInt (d + 1)) m = Some k)
             treeInfos (candidates rt p d m) kids).
    + now apply candidates_NoDup.
    + exact E.
    + intros c k Hc Hk. now apply (Hkid c k Hc Hk).
    + intros c1 k1 c2 k2 x I1 I2 B1 B2 X1 X2.
      destruct (Hkid c1 k1 I1 B1) as (M1 & P1 & _ & U1).
      destruct (Hkid c2 k2 I2 B2) as (M2 & P2 & _ & U2).
      destruct (U1 x X1) as [_ [j1 A1]]. destruct (U2 x X2) as [_ [j2 A2]].
      now apply (one_child_above m rank p c1 c2 (SpanID (span x)) j1 j2).
  - intros x Hx. apply (Permutation_in _ P) in Hx.
    apply in_flat_map in Hx. destruct Hx as (k & Hk & Hx).
    assert (Hex : exists c, In c (candidates rt p d m) /\
              buildChildren rt fuel c (wrapInt (d + 1)) m = Some k).
    { clear -E Hk. induction E as [|c0 k0 l ks H0 HF IHF]; [destruct Hk|].
      destruct Hk as [<-|Hk].
      - exists c0. split; [now left|exact H0].
      - destruct (IHF Hk) as (c & I & B). exists c. split; [now right|exact B]. }
    destruct Hex as (c & Ic & Bc).
    destruct (Hkid c k Ic Bc) as (Mc & Pc & _ & Uc).
    destruct (Uc x Hx) as [Hm [j Hj]]. split; [exact Hm|]. exists j.
    apply (ancestor_snoc m j _ (SpanID (span c))); [exact Hj|].
    unfold parentKey. now rewrite (mapSpans_keyed_lookup m c K Mc), Pc.
Qed.


Lemma Forall2_In_r {A B} (R : A -> B -> Prop) l ks b :
  Forall2 R l ks -> In b ks -> exists a, In a l /\ R a b.
Proof.
  induction 1 as [|a0 b0 l ks H0 HF IH]; intros Hb; [destruct Hb|].
  destruct Hb as [<-|Hb].
  - exists a0. split; [now left|exact H0].
  - destruct (IH Hb) as (a & I & Ra). exists a. split; [now right|exact Ra].
Qed.

Lemma list_max_ge l n : In n l -> (n <= list_max l)%nat.
Proof.
  intros H. pose proof (proj1 (list_max_le l (list_max l)) (le_n _)) as F.
  rewrite Forall_forall in F. apply F. now apply list_elem_of_In.
Qed.









(** *** One tree in every run *)

Lemma buildChildren_root rt m fuel si d t :
  buildChildren rt fuel si d m = Some t -> nodeInfo t = si /\ nodeDepth t = d.
Proof.
  destruct fuel as [|fuel]; [discriminate|]. rewrite buildChildren_S.
  destruct (mapM _ _); [|discriminate]. intros [= <-]. now split.
Qed.




Lemma sortSlice_lessStart_sorted rt kids :
  RuntimeOK rt ->
  StronglySorted (fun a b => startKey a <= startKey b)
    (sortSlice rt spanTreeNode lessStart kids).
Proof. intros OK. apply (sort_sorted rt OK spanTreeNode startKey). Qed.


Lemma fold_right_and_map {A} (P : A -> Prop) l :
  (forall x, In x l -> P x) -> fold_right and True (map P l).
Proof.
  induction l as [|x l IH]; intros H; cbn [map fold_right]; [exact I|].
  split; [apply H; now left|]. apply IH. intros y Hy. apply H. now right.
Qed.

Lemma StronglySorted_map {A B} (f : A -> B) (R : B -> B -> Prop) l :
  StronglySorted (fun a b => R (f a) (f b)) l -> StronglySorted R (map f l).
Proof.
  induction 1 as [|x l Hl IH Hx]; cbn [map]; constructor; [exact IH|].
  apply List.Forall_forall. intros y Hy. apply in_map_iff in Hy.
  destruct Hy as (a & <- & Ha). exact (proj1 (List.Forall_forall _ _) Hx a Ha).
Qed.

(** The children of every node of a returned tree are the spans of the id
    map with the id of the node for parent, in ascending order of start. *)
Lemma buildChildren_childrenByStart rt m :
  RuntimeOK rt ->
  forall fuel si d t,
    buildChildren rt fuel si d m = Some t -> childrenByStart m t.
Proof.
  intros OK. induction fuel as [|fuel IH]; intros si d t H; [discriminate|].
  one_call H kids E.
  apply mapM_Some in E. cbn [childrenByStart].
  pose proof (sort_perm rt OK _ lessStart kids) as P.
  assert (Hk : forall k, In k (sortSlice rt spanTreeNode lessStart kids) ->
            exists c, buildChildren rt fuel c (wrapInt (d + 1)) m = Some k).
  { intros k Hk. apply (Permutation_in _ P) in Hk.
    destruct (Forall2_In_r _ _ _ _ E Hk) as (c & _ & Bc). now exists c. }
  split; [|split; [|split]].
  - rewrite (Permutation_map nodeInfo P).
    assert (Em : map nodeInfo kids = candidates rt (SpanID (span si)) d m).
    { clear -E. induction E as [|c k l ks H _ IHE]; cbn [map]; [reflexivity|].
      apply buildChildren_root in H. destruct H as [-> _]. now rewrite IHE. }
    rewrite Em. now apply candidates_perm.
  - apply StronglySorted_map. now apply sortSlice_lessStart_sorted.
  - apply List.Forall_forall. intros k Hin. destruct (Hk k Hin) as [c Bc].
    now apply buildChildren_root in Bc.
  - apply fold_right_and_map. intros k Hin. destruct (Hk k Hin) as [c Bc].
    exact (IH c _ k Bc).
Qed.



(** ** The lock discipline *)

Lemma removeOne_spec m l rest :
  removeOne m l = Some rest ->
  In m l /\ List.length l = S (List.length rest) /\
  (forall P : Method -> Prop, List.Forall P l -> List.Forall P rest).
Proof.
  revert rest. induction l as [|x l IH]; intros rest H; [discriminate|].
  cbn [removeOne] in H. destruct (methodEqb x m) eqn:E.
  - injection H as <-. split; [left; destruct x, m; try discriminate; reflexivity|].
    split; [reflexivity|]. intros P HP. now inversion HP.
  - destruct (removeOne m l) as [rest'|]; [|discriminate]. injection H as <-.
    destruct (IH rest' eq_refl) as (I & L & F). split; [now right|].
    split; [cbn [List.length]; lia|]. intros P HP. inversion HP; subst.
    constructor; [assumption|now apply F].
Qed.

Lemma sysStep_lockInv sys e sys' :
  lockInv sys -> sysStep sys e = Some sys' -> lockInv sys'.
Proof.
  intros [Hw Hr] H. destruct e as [m|m]; cbn [sysStep] in H.
  - destruct (acquire (lockOf m) (mu sys)) as [mu'|] eqn:A; [|discriminate].
    injection H as <-. unfold acquire in A.
    destruct (writer (mu sys)) eqn:W; [destruct (lockOf m); discriminate|].
    destruct (Hr eq_refl) as [Hn Hall]. destruct (lockOf m) eqn:L.
    + injection A as <-. split; cbn [mu inside writer readers]; [discriminate|].
      intros _. split; [cbn [List.length]; now rewrite Hn|now constructor].
    + destruct (readers (mu sys)) eqn:R; [|discriminate]. injection A as <-.
      split; cbn [mu inside writer readers]; [|discriminate]. intros _.
      destruct (inside sys); [|discriminate]. split; [|reflexivity].
      destruct m; try discriminate. reflexivity.
  - destruct (removeOne m (inside sys)) as [rest|] eqn:E; [|discriminate].
    injection H as <-. destruct (removeOne_spec m _ rest E) as (I & Len & F).
    destruct (writer (mu sys)) eqn:W.
    + destruct (Hw eq_refl) as [Hin Hz]. rewrite Hin in I, Len.
      destruct I as [<-|[]]. cbn [lockOf release]. rewrite Hz.
      split; cbn [mu inside writer readers]; [discriminate|]. intros _.
      destruct rest; [|cbn [List.length] in Len; lia]. split; [reflexivity|constructor].
    + destruct (Hr eq_refl) as [Hn Hall].
      assert (L : lockOf m = Shared).
      { rewrite List.Forall_forall in Hall. now apply Hall. }
      rewrite L. cbn [release]. rewrite W.
      split; cbn [mu inside writer readers]; [discriminate|]. intros _.
      split; [lia|now apply F].
Qed.

Lemma sysRun_lockInv es : forall sys sys',
  lockInv sys -> sysRun sys es = Some sys' -> lockInv sys'.
Proof.
  induction es as [|e es IH]; intros sys sys' Hinv H; cbn [sysRun] in H.
  - now injection H as <-.
  - destruct (sysStep sys e) as [sys1|] eqn:E; [|discriminate].
    apply (IH sys1); [|exact H]. now apply (sysStep_lockInv sys e).
Qed.

(** The exclusive lock does what it is for: while a call of [AddTraces] is
    inside, no other call is. *)
Lemma AddTraces_runs_alone es sys :
  sysRun sysInit es = Some sys ->
  In MAddTraces (inside sys) -> inside sys = [MAddTraces].
Proof.
  intros H Hin.
  assert (Hinv : lockInv sys).
  { apply (sysRun_lockInv es sysInit); [|exact H].
    split; cbn; [discriminate|]. intros _. split; [reflexivity|constructor]. }
  destruct Hinv as [Hw Hr]. destruct (writer (mu sys)) eqn:W.
  - now apply Hw.
  - destruct (Hr eq_refl) as [_ Hall]. rewrite List.Forall_forall in Hall.
    apply Hall in Hin. discriminate.
Qed.

(** C4, the defect: [GetTraces] takes the shared lock, so two calls can be
    inside together, and what it runs there, [expireOldTracesLocked],
    writes to the store; [AddTraces] takes the exclusive lock and keeps
    every other call out. *)
Lemma GetTraces_expires_under_shared_lock :
  lockOf MGetTraces = Shared /\
  lockOf MAddTraces = Exclusive /\
  sysRun sysInit [Enter MGetTraces; Enter MGetTraces]
  = Some (mkSys (mkRWMutex 2 false) [MGetTraces; MGetTraces]) /\
  sysRun sysInit [Enter MAddTraces; Enter MAddTraces] = None /\
  sysRun sysInit [Enter MAddTraces; Enter MGetTraces] = None /\
  s_traces (fst (GetTraces storeAt100 110)) <> s_traces storeAt100 /\
  droppedOldest (fst (GetTraces storeAt100 110)) <> droppedOldest storeAt100.
Proof. repeat split; try reflexivity; vm_compute; discriminate. Qed.

(** ** The properties on concrete inputs *)

(** Every state that operations reach from a new store is well typed. *)
Lemma run_wellTyped c ops : wellTyped (run (NewTraceStorage c) ops).
Proof.
  pose proof (run_accounted ops (NewTraceStorage c)) as Ha.
  assert (H : accounted (NewTraceStorage c)) by (split; reflexivity).
  apply Ha, accounted_iff in H. destruct H as [Hb Hs].
  pose proof (run_dropInv ops 0 _ (new_dropInv c)) as [H0 Hd].
  unfold wellTyped. rewrite Hb, Hs, H0, Hd.
  repeat split; try apply wrap64_range; vm_compute; discriminate.
Qed.

(** Three batches into a store limited to two: the second and the third
    remain, in that order. *)
Example three_batches_into_two :
  map timestamp (s_traces (fold_left admitBatch threeBatches (NewTraceStorage capTwo)))
  = [2; 3].
Proof. reflexivity. Qed.

(** Nothing admitted: nothing to write. *)
Example no_batches_no_traces :
  orderedTraces runtimeFwd (NewTraceStorage capTwo) = [].
Proof. reflexivity. Qed.



Lemma storeAt100_wellTyped : wellTyped storeAt100.
Proof. repeat split; vm_compute; discriminate. Qed.

Lemma expiry_on_store_at_100 :
  s_traces (fst (GetTraces storeAt100 109)) = s_traces storeAt100 /\
  droppedOldest (fst (GetTraces storeAt100 111)) = 1.
Proof.
  split.
  - rewrite (proj1 (proj1 (expiry_keeps_entries_after_cutoff storeAt100 109
                              storeAt100_wellTyped) ltac:(cbn; lia))).
    reflexivity.
  - rewrite (proj1 (proj2 (proj2 (proj2 (proj2 (proj2 (proj1
               (expiry_keeps_entries_after_cutoff storeAt100 111
                  storeAt100_wellTyped) ltac:(cbn; lia)))))))).
    reflexivity.
Defined.



Lemma ordering_on_tieStore :
  StronglySorted earliestLe (sortTraces runtimeRev (groupTraces (s_traces tieStore))).
Proof.
  exact (proj1 (proj2 (traces_ordered_by_earliest_start runtimeRev (s_traces tieStore)
                         runtimeRev_ok))).
Defined.

Lemma plainTrace_acyclic : acyclic plainRank (spanMapOf (spans plainTrace)).
Proof.
  intros si H. vm_compute in H.
  repeat (destruct H as [<-|H]; [vm_compute; lia|]). destruct H.
Qed.


Lemma plainTrace_nonempty : spans plainTrace <> [].
Proof. discriminate. Qed.



(** * Further properties of the store *)

(** ** What an admission keeps *)

Lemma AddTraces_traces s t now :
  exists m, s_traces (AddTraces s t now)
            = skipn m (s_traces s) ++ [entryOf (t, now)].
Proof.
  destruct (byteCapStep_iter s (estimateSize t (countSpans t))) as [m1 E1].
  destruct (countCapStep_iter (byteCapStep s (estimateSize t (countSpans t))))
    as [m2 E2].
  exists (m1 + m2)%nat. unfold AddTraces. cbn [s_traces].
  rewrite E2, E1, !iter_removeOldest_traces, skipn_skipn.
  unfold entryOf. cbn [fst snd]. do 2 f_equal. lia.
Qed.

Lemma sublist_list_filter {A} (p : A -> bool) (l : list A) :
  sublist (List.filter p l) l.
Proof.
  induction l as [|x l IH]; cbn [List.filter]; [constructor|].
  destruct (p x); [now apply sublist_skip|now apply sublist_cons].
Qed.

Lemma sublist_map {A B} (f : A -> B) (l k : list A) :
  sublist l k -> sublist (map f l) (map f k).
Proof.
  induction 1; cbn [map]; [constructor|now apply sublist_skip|now apply sublist_cons].
Qed.

Lemma step_sublist s o pre :
  sublist (s_traces s) pre ->
  sublist (s_traces (step s o)) (pre ++ admittedBy o).
Proof.
  intros H. destruct o as [t now|now|]; cbn [step admittedBy GetTraces fst].
  - destruct (AddTraces_traces s t now) as [m ->].
    apply sublist_app; [|reflexivity].
    transitivity (s_traces s); [apply sublist_drop|exact H].
  - rewrite app_nil_r. transitivity (s_traces s); [|exact H].
    destruct (Z_lt_le_dec 0 (TraceExpiration (config s))) as [Hpos|Hoff].
    + destruct (expire_spec s now Hpos) as (-> & _). apply sublist_list_filter.
    + now rewrite expire_off.
  - now rewrite app_nil_r.
Qed.

Lemma run_sublist ops : forall s pre,
  sublist (s_traces s) pre ->
  sublist (s_traces (run s ops)) (pre ++ admitted ops).
Proof.
  unfold run, admitted. induction ops as [|o ops IH]; intros s pre H;
    cbn [fold_left flat_map].
  - now rewrite app_nil_r.
  - rewrite app_assoc. apply IH. now apply step_sublist.
Qed.


Lemma StronglySorted_sublist {A} (R : A -> A -> Prop) (l k : list A) :
  sublist l k -> StronglySorted R k -> StronglySorted R l.
Proof.
  induction 1 as [|x l k Hs IH|x l k Hs IH]; intros Hk.
  - constructor.
  - apply StronglySorted_inv in Hk. destruct Hk as [Hk Hx].
    constructor; [now apply IH|].
    apply List.Forall_forall. intros y Hy.
    apply (proj1 (List.Forall_forall _ _) Hx). apply list_elem_of_In.
    apply (sublist_subseteq _ _ Hs). now apply list_elem_of_In.
  - apply StronglySorted_inv in Hk. now apply IH.
Qed.

(** X2: when the clock does not go back between the calls of [AddTraces],
    the retained entries are in ascending order of their timestamps, after
    any sequence of admissions, evictions and expirations. *)
Theorem retained_in_timestamp_order (c : Config) (ops : list Op) :
  StronglySorted Z.le (map timestamp (admitted ops)) ->
  StronglySorted Z.le (map timestamp (s_traces (run (NewTraceStorage c) ops))).
Proof.
  intros H. apply (StronglySorted_sublist _ _ (map timestamp (admitted ops))); [|exact H].
  apply (sublist_map timestamp).
  exact (run_sublist ops (NewTraceStorage c) [] (sublist_nil_l _)).
Qed.

(** ** First in, first out *)

Lemma AddTraces_traces_count_only s t now :
  MaxMemoryMB (config s) <= 0 ->
  s_traces (AddTraces s t now)
  = (if (0 <? MaxTraces (config s)) && (MaxTraces (config s) <=? len (s_traces s))
     then skipn 1 (s_traces s) else s_traces s) ++ [entryOf (t, now)].
Proof.
  intros Hmem. unfold AddTraces. cbn [s_traces].
  rewrite byteCapStep_off by assumption. unfold countCapStep.
  destruct (_ && _); [now rewrite removeOldest_traces|reflexivity].
Qed.

Lemma admitBatch_fifo bs : forall s,
  MaxMemoryMB (config s) <= 0 ->
  1 <= MaxTraces (config s) ->
  len (s_traces s) <= MaxTraces (config s) ->
  s_traces (fold_left admitBatch bs s)
  = skipn (List.length (s_traces s) + List.length bs - Z.to_nat (MaxTraces (config s)))
      (s_traces s ++ map entryOf bs).
Proof.
  induction bs as [|[t now] bs IH]; intros s Hmem HN Hlen.
  - cbn [fold_left map List.length]. rewrite app_nil_r.
    replace (_ + 0 - _)%nat with O by (unfold len in Hlen; lia). reflexivity.
  - cbn [fold_left map]. unfold admitBatch at 2. cbn [fst snd].
    pose proof (AddTraces_count_cap s t now Hmem HN Hlen) as L.
    pose proof (AddTraces_traces_count_only s t now Hmem) as T.
    rewrite IH; rewrite ?AddTraces_config; try assumption; [|lia].
    unfold len in *. rewrite T.
    destruct (0 <? MaxTraces (config s)) eqn:E0; [|lia]. cbn [andb] in *.
    destruct (MaxTraces (config s) <=? Z.of_nat (List.length (s_traces s))) eqn:E1.
    + apply Z.leb_le in E1.
      destruct (s_traces s) as [|x ts] eqn:Ets; [cbn [List.length] in *; lia|].
      cbn [skipn List.length] in *. rewrite !skipn_O, length_app. cbn [List.length].
      replace (List.length ts + 1 + List.length bs - Z.to_nat (MaxTraces (config s)))%nat
        with (List.length bs) by lia.
      replace (S (List.length ts) + S (List.length bs) - Z.to_nat (MaxTraces (config s)))%nat
        with (S (List.length bs)) by lia.
      cbn [app skipn]. now rewrite <- app_assoc.
    + apply Z.leb_gt in E1.
      rewrite length_app. cbn [List.length]. rewrite <- app_assoc. cbn [app].
      f_equal. lia.
Qed.

(** X1: with the count limit [N >= 1] alone, the store that admitted a
    sequence of batches retains the last [N] of them (all of them when there
    are fewer), in the order of their admission. *)
Theorem count_cap_keeps_the_last_N (c : Config) (bs : list (Traces * Z)) :
  MaxMemoryMB c <= 0 -> 1 <= MaxTraces c ->
  s_traces (fold_left admitBatch bs (NewTraceStorage c))
  = skipn (List.length bs - Z.to_nat (MaxTraces c)) (map entryOf bs).
Proof.
  intros Hmem HN.
  rewrite (admitBatch_fifo bs (NewTraceStorage c)); cbn [config NewTraceStorage s_traces];
    try assumption; [reflexivity|].
  change (len []) with 0. lia.
Qed.

(** ** The memory limit holds *)

Lemma iter_removeOldest_shift_many m2 m1 s :
  Nat.iter m2 removeOldest (Nat.iter m1 removeOldest s)
  = Nat.iter (m2 + m1) removeOldest s.
Proof. symmetry. apply Nat.iter_add. Qed.

Lemma sumWith_nonneg {A} (f : A -> Z) l :
  List.Forall (fun x => 0 <= f x) l -> 0 <= sumWith f l.
Proof. induction 1; cbn [sumWith]; lia. Qed.

Lemma sumWith_skipn_le {A} (f : A -> Z) n l :
  List.Forall (fun x => 0 <= f x) l -> sumWith f (skipn n l) <= sumWith f l.
Proof.
  revert l. induction n as [|n IH]; intros l H; [rewrite skipn_O; lia|].
  destruct l as [|x l]; [rewrite skipn_nil; lia|]. cbn [skipn sumWith].
  inversion H; subst. specialize (IH l ltac:(assumption)). lia.
Qed.

Lemma AddTraces_memory_step (s : TraceStorage) (t : Traces) (now : Z) :
  0 < MaxMemoryMB (config s) ->
  accounted s ->
  List.Forall (fun e => 0 <= sizeBytes e) (s_traces s) ->
  0 <= estimateSize t (countSpans t) ->
  sumWith sizeBytes (s_traces s) + estimateSize t (countSpans t) <= maxInt64 ->
  s_traces (AddTraces s t now) = [entryOf (t, now)] \/
  totalSizeBytes (AddTraces s t now) <= maxBytesOf (config s).
Proof.
  intros Hcap Hacc Hpos Hest Hfit.
  set (est := estimateSize t (countSpans t)) in *.
  set (B := maxBytesOf (config s)).
  (* a store that is [s] less some oldest entries holds an exact total *)
  assert (Hexact : forall m, let r := Nat.iter m removeOldest s in
            totalSizeBytes r = sumWith sizeBytes (s_traces r) /\
            0 <= sumWith sizeBytes (s_traces r) <= sumWith sizeBytes (s_traces s) /\
            add64 (totalSizeBytes r) est = sumWith sizeBytes (s_traces r) + est).
  { intros m r. subst r.
    assert (Ha : accounted (Nat.iter m removeOldest s)).
    { induction m as [|m IHm]; [exact Hacc|].
      rewrite Nat.iter_succ. now apply removeOldest_accounted. }
    apply accounted_iff in Ha. destruct Ha as [Hb _].
    rewrite iter_removeOldest_traces in *.
    pose proof (sumWith_skipn_le sizeBytes m (s_traces s) Hpos) as Hle.
    pose proof (sumWith_nonneg sizeBytes (skipn m (s_traces s))
                  (Forall_skipn _ m _ Hpos)) as H0.
    assert (Hb' : totalSizeBytes (Nat.iter m removeOldest s)
                  = sumWith sizeBytes (skipn m (s_traces s))).
    { rewrite Hb. apply wrap64_small. unfold inInt64, minInt64, maxInt64 in *. lia. }
    split; [exact Hb'|]. split; [lia|].
    unfold add64. rewrite Hb'. apply wrap64_small.
    unfold inInt64, minInt64, maxInt64 in *. lia. }
  destruct (byteCapStep_iter s est) as [m1 E1].
  destruct (countCapStep_iter (byteCapStep s est)) as [m2 E2].
  assert (Hphase : s_traces (byteCapStep s est) = [] \/
                   add64 (totalSizeBytes (byteCapStep s est)) est <= B).
  { unfold byteCapStep. destruct (0 <? MaxMemoryMB (config s)) eqn:E0; [|lia].
    fold B. destruct (B <? add64 (totalSizeBytes s) est) eqn:Ecmp.
    - destruct (evictOldestUntilRoom_spec s est) as (m & E & Hend & _).
      unfold noRoom in Hend. apply andb_false_iff in Hend.
      rewrite E in Hend at 2. rewrite iter_removeOldest_config in Hend. fold B in Hend.
      destruct Hend as [Hend|Hend].
      + left. apply Z.ltb_ge in Hend. unfold len in Hend.
        destruct (s_traces (evictOldestUntilRoom s est)); [reflexivity|].
        cbn [List.length] in Hend. lia.
      + right. now apply Z.ltb_ge in Hend.
    - right. now apply Z.ltb_ge in Ecmp. }
  unfold AddTraces. fold est. cbn [s_traces totalSizeBytes].
  rewrite E2, E1, iter_removeOldest_shift_many.
  destruct (Hexact (m2 + m1)%nat) as (_ & [_ Hle2] & Hadd2).
  destruct (Hexact m1) as (_ & [_ Hle1] & Hadd1).
  rewrite E1 in Hphase. destruct Hphase as [Hempty|Hroom].
  - left. rewrite iter_removeOldest_traces in *.
    assert (skipn (m2 + m1) (s_traces s) = []) as ->.
    { rewrite <- skipn_skipn, Hempty. apply skipn_nil. }
    reflexivity.
  - right. rewrite Hadd2. rewrite Hadd1 in Hroom.
    rewrite !iter_removeOldest_traces in *.
    pose proof (sumWith_skipn_le sizeBytes m2 (skipn m1 (s_traces s))
                  (Forall_skipn _ m1 _ Hpos)) as Hmono.
    rewrite skipn_skipn in Hmono. lia.
Qed.

(** X4: with a memory limit configured, and sizes that are not negative
    and add up within an [int64], an admission leaves the store either with
    the new entry alone or with a total size within the limit: the limit is
    exceeded only by a single batch that is larger than the limit itself.
    The total is then the sum of the sizes of the retained entries, with no
    wrap-around. *)
Theorem memory_limit_exceeded_only_by_lone_batch (s : TraceStorage) (t : Traces)
    (now : Z) :
  0 < MaxMemoryMB (config s) ->
  accounted s ->
  List.Forall (fun e => 0 <= sizeBytes e) (s_traces s) ->
  0 <= estimateSize t (countSpans t) ->
  sumWith sizeBytes (s_traces s) + estimateSize t (countSpans t) <= maxInt64 ->
  (s_traces (AddTraces s t now) = [entryOf (t, now)] \/
   totalSizeBytes (AddTraces s t now) <= maxBytesOf (config s)) /\
  totalSizeBytes (AddTraces s t now)
  = sumWith sizeBytes (s_traces (AddTraces s t now)).
Proof.
  intros Hcap Hacc Hpos Hest Hfit.
  split; [now apply AddTraces_memory_step|].
  pose proof (AddTraces_accounted s t now Hacc) as Ha.
  apply accounted_iff in Ha. destruct Ha as [-> _].
  destruct (AddTraces_traces s t now) as [m ->].
  rewrite sumWith_app. cbn [sumWith entryOf sizeBytes fst snd].
  pose proof (sumWith_skipn_le sizeBytes m (s_traces s) Hpos) as Hle.
  pose proof (sumWith_nonneg sizeBytes (skipn m (s_traces s))
                (Forall_skipn _ m _ Hpos)) as H0.
  apply wrap64_small. unfold inInt64, minInt64, maxInt64 in *. lia.
Qed.

(** ** Expiry composes *)

Lemma storage_eq (a b : TraceStorage) :
  s_traces a = s_traces b -> config a = config b ->
  totalSizeBytes a = totalSizeBytes b -> totalSpanCount a = totalSpanCount b ->
  droppedTraces a = droppedTraces b -> droppedOldest a = droppedOldest b ->
  a = b.
Proof. destruct a, b. cbn. intros; subst. reflexivity. Qed.

Lemma fresh_later c1 c2 e : c1 <= c2 -> fresh c2 e = true -> fresh c1 e = true.
Proof. unfold fresh. intros H F. apply Z.ltb_lt in F. apply Z.ltb_lt. lia. Qed.

Lemma filter_fresh_twice c1 c2 l :
  c1 <= c2 ->
  List.filter (fresh c2) (List.filter (fresh c1) l) = List.filter (fresh c2) l.
Proof.
  intros H. induction l as [|e l IH]; cbn [List.filter]; [reflexivity|].
  destruct (fresh c1 e) eqn:F1; cbn [List.filter]; rewrite IH; [reflexivity|].
  destruct (fresh c2 e) eqn:F2; [|reflexivity].
  rewrite (fresh_later c1 c2 e H F2) in F1. discriminate.
Qed.

Lemma sumWith_stale_twice (f : traceEntry -> Z) c1 c2 l :
  c1 <= c2 ->
  sumWith f (List.filter (stale c2) l)
  = sumWith f (List.filter (stale c1) l)
    + sumWith f (List.filter (stale c2) (List.filter (fresh c1) l)).
Proof.
  intros H. unfold stale. induction l as [|e l IH]; cbn [List.filter sumWith]; [reflexivity|].
  destruct (fresh c1 e) eqn:F1, (fresh c2 e) eqn:F2;
    cbn [negb List.filter sumWith]; rewrite ?F2; cbn [negb sumWith]; try lia.
  rewrite (fresh_later c1 c2 e H F2) in F1. discriminate.
Qed.

Lemma len_sumWith {A} (l : list A) : len l = sumWith (fun _ => 1) l.
Proof.
  unfold len. induction l as [|x l IH]; cbn [List.length sumWith]; lia.
Qed.

(** X5: taking a snapshot at a time and another at a later time leaves the
    store as one snapshot at the later time does (so a second snapshot at
    the same time changes nothing), and after a snapshot every retained
    entry is younger than the expiration. *)
Theorem later_snapshot_absorbs_earlier (s : TraceStorage) (n1 n2 : Z) :
  wellTyped s -> n1 <= n2 ->
  fst (GetTraces (fst (GetTraces s n1)) n2) = fst (GetTraces s n2) /\
  (0 < TraceExpiration (config s) ->
   List.Forall (fun e => n1 - timestamp e < TraceExpiration (config s))
     (s_traces (fst (GetTraces s n1)))).
Proof.
  intros (Wb & Ws & _ & Wd) Hle. cbn [GetTraces fst].
  destruct (Z_lt_le_dec 0 (TraceExpiration (config s))) as [Hpos|Hoff].
  - destruct (expire_spec s n1 Hpos) as (A1 & A2 & A3 & A4 & A5 & A6).
    destruct (expire_spec s n2 Hpos) as (B1 & B2 & B3 & B4 & B5 & B6).
    set (s1 := expireOldTracesLocked s n1) in *.
    assert (Hpos1 : 0 < TraceExpiration (config s1)) by now rewrite A2.
    destruct (expire_spec s1 n2 Hpos1) as (C1 & C2 & C3 & C4 & C5 & C6).
    rewrite A2 in C1, C4, C5, C6.
    set (c1 := n1 - TraceExpiration (config s)) in *.
    set (c2 := n2 - TraceExpiration (config s)) in *.
    assert (Hc : c1 <= c2) by (subst c1 c2; lia).
    split.
    + apply storage_eq.
      * rewrite C1, A1, B1. now apply filter_fresh_twice.
      * now rewrite C2, A2, B2.
      * rewrite C4 by (rewrite A4 by assumption; apply wrap64_range).
        rewrite A4, B4 by assumption. rewrite A1, wrap64_sub_l. f_equal.
        rewrite (sumWith_stale_twice sizeBytes c1 c2 (s_traces s) Hc). lia.
      * rewrite C5 by (rewrite A5 by assumption; apply wrap64_range).
        rewrite A5, B5 by assumption. rewrite A1, wrapInt_sub_l. f_equal.
        rewrite (sumWith_stale_twice spansOfEntry c1 c2 (s_traces s) Hc). lia.
      * now rewrite C3, A3, B3.
      * rewrite C6 by (rewrite A6 by assumption; apply wrap64_range).
        rewrite A6, B6 by assumption. rewrite A1, wrapInt_add_l. f_equal.
        rewrite !len_sumWith.
        rewrite (sumWith_stale_twice (fun _ => 1) c1 c2 (s_traces s) Hc). lia.
    + intros _. rewrite A1. apply List.Forall_forall. intros e He.
      apply filter_In in He. destruct He as [_ F]. unfold fresh in F.
      apply Z.ltb_lt in F. subst c1. lia.
  - rewrite (expire_off s n1 Hoff), (expire_off s n2 Hoff). split; [reflexivity|lia].
Qed.

(** ** The cost model *)

Lemma countScopeSpans_sum rs a :
  countScopeSpans (wrapInt a) rs = wrapInt (a + spansOfResource rs).
Proof.
  unfold countScopeSpans, spansOfResource. revert a.
  induction (ScopeSpansOf rs) as [|ss l IH]; intros a; cbn [fold_left sumWith].
  - f_equal. lia.
  - rewrite wrapInt_add_l, IH. f_equal. lia.
Qed.

Lemma countSpans_from t : forall a,
  fold_left countScopeSpans t (wrapInt a) = wrapInt (a + spanTotal t).
Proof.
  unfold spanTotal. induction t as [|rs t IH]; intros a; cbn [fold_left sumWith].
  - f_equal. lia.
  - rewrite countScopeSpans_sum, IH. f_equal. lia.
Qed.

Lemma countSpans_total t : countSpans t = wrapInt (spanTotal t).
Proof. unfold countSpans. change 0 with (wrapInt 0) at 1. now rewrite countSpans_from. Qed.

Lemma spansOfResource_nonneg rs : 0 <= spansOfResource rs.
Proof.
  unfold spansOfResource. apply sumWith_nonneg, List.Forall_forall.
  intros ss _. apply len_nonneg.
Qed.

Lemma spanTotal_nonneg t : 0 <= spanTotal t.
Proof.
  unfold spanTotal. apply sumWith_nonneg, List.Forall_forall.
  intros rs _. apply spansOfResource_nonneg.
Qed.

(** X6: as long as the result fits an [int64], [countSpans] is the number
    of spans of the batch and [estimateSize] is 100 bytes, 500 for every
    resource and 1024 for every span; it is then at least 100. *)
Theorem size_estimate_is_the_weighted_count (t : Traces) :
  100 + 500 * len t + 1024 * spanTotal t <= maxInt64 ->
  countSpans t = spanTotal t /\
  estimateSize t (countSpans t) = 100 + 500 * len t + 1024 * spanTotal t /\
  100 <= estimateSize t (countSpans t).
Proof.
  intros Hfit. pose proof (spanTotal_nonneg t) as Hs. pose proof (len_nonneg t) as Hl.
  assert (Hc : countSpans t = spanTotal t).
  { rewrite countSpans_total. apply wrapInt_small.
    unfold inInt64, minInt64, maxInt64 in *. lia. }
  assert (He : estimateSize t (countSpans t) = 100 + 500 * len t + 1024 * spanTotal t).
  { unfold estimateSize, add64, wrapInt. rewrite Hc.
    rewrite !(wrap64_small (len t * 500)), !(wrap64_small (spanTotal t * 1024)),
      (wrap64_small (100 + len t * 500)), wrap64_small;
      unfold inInt64, minInt64, maxInt64 in *; lia. }
  split; [exact Hc|]. split; [exact He|]. rewrite He. lia.
Qed.

(** * Further properties of the report *)

(** ** The table of contents *)

Lemma findTraceIndexFrom_nth l : forall i n ti,
  List.NoDup (map traceID l) -> nth_error l n = Some ti ->
  findTraceIndexFrom i l ti = i + Z.of_nat n.
Proof.
  induction l as [|h l IH]; intros i n ti Hnd Hn; [destruct n; discriminate|].
  cbn [map] in Hnd. apply List.NoDup_cons_iff in Hnd. destruct Hnd as [Hh Hnd].
  cbn [findTraceIndexFrom]. destruct n as [|n]; cbn [nth_error] in Hn.
  - injection Hn as ->. rewrite String.eqb_refl. lia.
  - destruct (String.eqb_spec (traceID h) (traceID ti)) as [E|E].
    + exfalso. apply Hh. rewrite E. apply in_map. now apply nth_error_In in Hn.
    + rewrite (IH (i + 1) n ti Hnd Hn). lia.
Qed.

Lemma findTraceIndexFrom_absent l : forall i ti,
  (forall t', In t' l -> traceID t' <> traceID ti) ->
  findTraceIndexFrom i l ti = -1.
Proof.
  induction l as [|h l IH]; intros i ti H; cbn [findTraceIndexFrom]; [reflexivity|].
  destruct (String.eqb_spec (traceID h) (traceID ti)) as [E|E].
  - exfalso. apply (H h); [now left|exact E].
  - apply IH. intros t' Ht'. apply H. now right.
Qed.

Lemma filter_partition_perm {A} (p : A -> bool) l :
  Permutation (List.filter p l ++ List.filter (fun x => negb (p x)) l) l.
Proof.
  induction l as [|x l IH]; cbn [List.filter]; [constructor|].
  destruct (p x); cbn [negb app].
  - now constructor.
  - symmetry. apply Permutation_cons_app. now symmetry.
Qed.

Lemma groupTraces_sorted_NoDup rt entries :
  RuntimeOK rt -> List.NoDup (map traceID (sortTraces rt (groupTraces entries))).
Proof.
  intros OK.
  apply (Permutation_NoDup (l := map traceID (map snd (map_to_list (groupTraces entries))))).
  - symmetry. apply Permutation_map. now apply sortTraces_perm.
  - rewrite groupTraces_ids. apply NoDup_ListNoDup, NoDup_fst_map_to_list.
Qed.

(** X8: the number that a row of the table of contents gives to a trace
    ([findTraceIndex] plus one) is the number of the section that the
    report writes for that trace; a trace that is not in the report gets
    index -1; every trace of the report is in exactly one of the two groups
    of the table. *)
Theorem toc_numbers_are_section_numbers (rt : Runtime) (entries : list traceEntry) :
  RuntimeOK rt ->
  let out := sortTraces rt (groupTraces entries) in
  (forall idx ti, nth_error out idx = Some ti ->
     findTraceIndex out ti = Z.of_nat idx /\ tocNumber out ti = sectionNumber idx) /\
  (forall ti, (forall t', In t' out -> traceID t' <> traceID ti) ->
     findTraceIndex out ti = -1) /\
  Permutation (errorTraces out ++ successTraces out) out /\
  (forall ti, In ti (errorTraces out) -> In ti (successTraces out) -> False).
Proof.
  intros OK out. pose proof (groupTraces_sorted_NoDup rt entries OK) as Hnd.
  fold out in Hnd. split; [|split; [|split]].
  - intros idx ti Hn. unfold tocNumber, sectionNumber, findTraceIndex.
    rewrite (findTraceIndexFrom_nth out 0 idx ti Hnd Hn). now split.
  - intros ti H. now apply findTraceIndexFrom_absent.
  - apply filter_partition_perm.
  - unfold errorTraces, successTraces. intros ti He Hs.
    apply filter_In in He, Hs. destruct He as [_ He], Hs as [_ Hs].
    rewrite He in Hs. discriminate.
Qed.

(** ** The duration of a trace *)

Lemma wrap64_wrapUint64 z : wrap64 (wrapUint64 z) = wrap64 z.
Proof.
  unfold wrap64, wrapUint64. f_equal. now rewrite Zplus_mod_idemp_l.
Qed.

Lemma durationStep_fold l : forall e0 l0,
  let r := fold_left durationStep l (e0, l0) in
  fst r <= e0 /\ l0 <= snd r /\
  (forall si, In si l -> fst r <= startOf si /\ endOf si <= snd r) /\
  (snd r = l0 \/ exists si, In si l /\ snd r = endOf si) /\
  fst r = fold_left (fun earliest si =>
                       if startOf si <? earliest then startOf si else earliest) l e0.
Proof.
  induction l as [|x l IH]; intros e0 l0; cbn [fold_left]; cbn zeta.
  - cbn [fst snd]. split; [lia|]. split; [lia|]. split; [intros si []|].
    split; [now left|reflexivity].
  - pose (e1 := if startOf x <? e0 then startOf x else e0).
    pose (l1 := if l0 <? endOf x then endOf x else l0).
    change (durationStep (e0, l0) x) with (e1, l1).
    change (if startOf x <? e0 then startOf x else e0) with e1.
    specialize (IH e1 l1). cbn zeta in IH. destruct IH as (I1 & I2 & I3 & I4 & I5).
    assert (He : e1 <= e0 /\ e1 <= startOf x).
    { subst e1. destruct (startOf x <? e0) eqn:E;
        [apply Z.ltb_lt in E|apply Z.ltb_ge in E]; lia. }
    assert (Hl : l0 <= l1 /\ endOf x <= l1 /\ (l1 = l0 \/ l1 = endOf x)).
    { subst l1. destruct (l0 <? endOf x) eqn:E;
        [apply Z.ltb_lt in E|apply Z.ltb_ge in E]; lia. }
    split; [lia|]. split; [lia|]. split; [|split; [|exact I5]].
    + intros si [<-|H]; [lia|now apply I3].
    + destruct I4 as [I4|(si & Hsi & I4)].
      * destruct Hl as (_ & _ & [Hl|Hl]); [left; lia|].
        right. exists x. split; [now left|lia].
      * right. exists si. split; [now right|exact I4].
Qed.

(** X9: for a trace with spans, [getDuration] is the latest end less the
    earliest start of its spans (the earliest start that [getEarliestTime]
    finds), as a signed 64-bit number; when that difference fits and is not
    negative, no span that ends after it starts lasts longer than the
    trace. *)
Theorem duration_spans_every_span (ti : traceInfo) :
  spans ti <> [] ->
  let earliest := fst (earliestLatest ti) in
  let latest := snd (earliestLatest ti) in
  earliest = getEarliestTime ti /\
  (forall si, In si (spans ti) -> earliest <= startOf si /\ endOf si <= latest) /\
  (exists si, In si (spans ti) /\ endOf si = latest) /\
  getDuration ti = wrap64 (latest - earliest) /\
  (0 <= latest - earliest <= maxInt64 ->
   getDuration ti = latest - earliest /\
   forall si, In si (spans ti) -> endOf si - startOf si <= getDuration ti).
Proof.
  intros Hne. cbn zeta. unfold getDuration, earliestLatest, getEarliestTime.
  destruct (spans ti) as [|s0 rest] eqn:Es; [congruence|].
  pose proof (durationStep_fold (s0 :: rest) (startOf s0) (endOf s0)) as H.
  cbn zeta in H. destruct H as (I1 & I2 & I3 & I4 & I5).
  destruct (fold_left durationStep (s0 :: rest) (startOf s0, endOf s0)) as [e la] eqn:Ef.
  cbn [fst snd] in *.
  assert (Hd : wrap64 (wrapUint64 (la - e)) = wrap64 (la - e)) by apply wrap64_wrapUint64.
  split.
  { rewrite I5. cbn [fold_left]. now rewrite Z.ltb_irrefl. }
  split; [exact I3|]. split.
  { destruct I4 as [I4|(si & Hsi & I4)].
    - exists s0. split; [now left|now symmetry].
    - exists si. split; [exact Hsi|now symmetry]. }
  split; [exact Hd|]. intros Hfit.
  assert (Hx : wrap64 (wrapUint64 (la - e)) = la - e).
  { rewrite Hd. apply wrap64_small. unfold inInt64, minInt64, maxInt64 in *. lia. }
  split; [exact Hx|]. intros si Hsi. rewrite Hx.
  destruct (I3 si Hsi). lia.
Qed.

(** ** The span table of the summary mode *)

Lemma clampMaxSpans_le M n : 0 <= n -> clampMaxSpans M n <= n.
Proof.
  intros Hn. unfold clampMaxSpans.
  destruct (M =? 0) eqn:E0; cbn [orb]; [lia|].
  destruct (n <? M) eqn:E1; [lia|]. apply Z.ltb_ge in E1. lia.
Qed.

Lemma skipn_nth_error {A} (l : list A) : forall a x,
  nth_error l a = Some x -> skipn a l = x :: skipn (S a) l.
Proof.
  induction l as [|y l IH]; intros [|a] x H; try discriminate.
  - now injection H as ->.
  - cbn [nth_error] in H. change (skipn (S a) (y :: l)) with (skipn a l).
    now rewrite (IH a x H).
Qed.

Lemma rows_of_prefix (l : list spanInfo) : forall n a,
  (a + n <= List.length l)%nat ->
  mapM (fun i => match nth_error l i with
                 | Some si => Some (wrapInt (Z.of_nat i + 1), si)
                 | None => None
                 end) (seq a n)
  = Some (map (fun p => (wrapInt (Z.of_nat (fst p) + 1), snd p))
            (combine (seq a n) (firstn n (skipn a l)))).
Proof.
  induction n as [|n IH]; intros a Ha; [reflexivity|].
  destruct (nth_error l a) as [x|] eqn:E.
  - rewrite (skipn_nth_error l a x E). cbn [seq firstn combine map fst snd mapM].
    rewrite E. cbn [mbind option_bind]. rewrite (IH (S a)) by lia. reflexivity.
  - apply nth_error_None in E. lia.
Qed.

(** X13: whatever the configured [MaxSpansPerTrace], the span table of the
    summary mode never reads past the spans of the trace: its rows are the
    first spans of the trace, numbered from 1, all of them when the limit
    is 0 or not below their number.  When no line tells of hidden spans,
    every span has a row; with a limit that is not negative, the rows and
    the number of that line add up to the number of spans. *)
Theorem summary_rows_are_a_prefix (M : Z) (l : list spanInfo) :
  let n := Z.to_nat (clampMaxSpans M (len l)) in
  clampMaxSpans M (len l) <= len l /\
  summaryRows M l
  = Some (map (fun p => (wrapInt (Z.of_nat (fst p) + 1), snd p))
            (combine (seq 0 n) (firstn n l))) /\
  (M = 0 \/ len l <= M -> firstn n l = l) /\
  (summaryHidden M l = None -> firstn n l = l) /\
  (0 <= M -> len l <= maxInt64 -> forall h, summaryHidden M l = Some h ->
     0 < h /\ Z.of_nat n + h = len l).
Proof.
  cbn zeta. pose proof (len_nonneg l) as Hl.
  pose proof (clampMaxSpans_le M (len l) Hl) as Hc.
  split; [exact Hc|]. split; [|split; [|split]].
  - unfold summaryRows. cbn zeta. rewrite (rows_of_prefix l _ 0%nat).
    + now rewrite skipn_O.
    + unfold len in *. lia.
  - intros H. apply firstn_all2. unfold clampMaxSpans.
    destruct (M =? 0) eqn:E0; cbn [orb]; [unfold len; lia|].
    destruct (len l <? M) eqn:E1; [unfold len; lia|].
    apply Z.eqb_neq in E0. unfold len in *. lia.
  - unfold summaryHidden. cbn zeta.
    destruct (clampMaxSpans M (len l) <? len l) eqn:E; [discriminate|].
    intros _. apply Z.ltb_ge in E. apply firstn_all2. unfold len in *. lia.
  - intros HM Hfit h. unfold summaryHidden. cbn zeta.
    destruct (clampMaxSpans M (len l) <? len l) eqn:E; [|discriminate].
    apply Z.ltb_lt in E. intros [= <-].
    assert (H0 : 0 <= clampMaxSpans M (len l)).
    { unfold clampMaxSpans. destruct ((M =? 0) || (len l <? M)); lia. }
    unfold wrapInt. rewrite wrap64_small.
    + lia.
    + unfold inInt64, minInt64, maxInt64 in *. lia.
Qed.

(** ** The nodes of the span tree *)

Lemma Forall2_In_l {A B} (R : A -> B -> Prop) l ks a :
  Forall2 R l ks -> In a l -> exists b, In b ks /\ R a b.
Proof.
  induction 1 as [|a0 b0 l ks H0 HF IH]; intros Ha; [destruct Ha|].
  destruct Ha as [<-|Ha].
  - exists b0. split; [now left|exact H0].
  - destruct (IH Ha) as (b & I & Rb). exists b. split; [now right|exact Rb].
Qed.

(** Every span of the id map that parent links lead from to the node of a
    call is in the subtree that the call returns. *)
Lemma buildChildren_complete rt m :
  RuntimeOK rt -> keyed m ->
  forall fuel si d t,
    buildChildren rt fuel si d m = Some t ->
    forall j x, In x (mapSpans m) ->
      ancestor m (S j) (SpanID (span x)) = Some (SpanID (span si)) ->
      In x (belowRoot t).
Proof.
  intros OK K. induction fuel as [|fuel IH]; intros si d t H j x Hx Hj; [discriminate|].
  one_call H kids E. apply mapM_Some in E.
  set (p := SpanID (span si)) in *.
  assert (P : Permutation (belowRoot (Node si (sortSlice rt spanTreeNode lessStart kids) d))
                (flat_map treeInfos kids)).
  { unfold belowRoot. cbn [nodeChildren].
    apply Permutation_flat_map, (sort_perm rt OK). }
  apply (Permutation_in _ (Permutation_sym P)).
  replace (S j) with (j + 1)%nat in Hj by lia.
  apply ancestor_split in Hj. destruct Hj as (w & Hw & Hp).
  cbn [ancestor] in Hp. destruct (parentKey m w) as [z|] eqn:Ez; [|discriminate].
  injection Hp as ->. unfold parentKey in Ez.
  destruct (m !! w) as [v|] eqn:Ev; [|discriminate]. injection Ez as Ez.
  assert (Hv : In v (candidates rt p d m)).
  { apply candidates_In; [exact OK|]. split; [|exact Ez].
    apply mapSpans_In. now exists w. }
  destruct (Forall2_In_l _ _ _ v E Hv) as (k & Hk & Bk).
  apply in_flat_map. exists k. split; [exact Hk|].
  rewrite treeInfos_cons. pose proof (buildChildren_root _ _ _ _ _ _ Bk) as [Hr _].
  destruct j as [|j].
  - left. rewrite Hr. cbn [ancestor] in Hw. injection Hw as <-.
    pose proof (mapSpans_keyed_lookup m x K Hx) as Lx. congruence.
  - right. apply (IH v _ k Bk j x Hx). now rewrite (K w v Ev).
Qed.

(** X11: without a cycle in the parent links, the tree that [buildSpanTree]
    returns holds below its root exactly the spans of the id map that
    parent links lead from to the root, each of them once.  A span whose
    parent id is neither the id of the root nor the id of a span of the
    trace is not in the tree. *)
Theorem tree_holds_exactly_the_descendants_of_the_root (rt : Runtime)
    (ti : traceInfo) (rank : string -> nat) (fuel : nat) (t : spanTreeNode) :
  RuntimeOK rt -> acyclic rank (spanMapOf (spans ti)) ->
  buildSpanTree rt fuel ti = Some t ->
  let m := spanMapOf (spans ti) in
  let root := rootOf (spans ti) in
  nodeInfo t = root /\
  List.NoDup (belowRoot t) /\
  (forall x, In x (belowRoot t) <->
     In x (mapSpans m) /\
     exists j, ancestor m (S j) (SpanID (span x)) = Some (SpanID (span root))) /\
  (forall x, In x (mapSpans m) ->
     ParentSpanID (span x) <> SpanID (span root) ->
     m !! ParentSpanID (span x) = None ->
     ~ In x (belowRoot t)).
Proof.
  intros OK Hacyc H. cbn zeta. unfold buildSpanTree in H.
  pose proof (spanMapOf_keyed (spans ti)) as K.
  destruct (buildChildren_shape rt _ rank OK K Hacyc _ _ _ _ H) as (Hroot & Hnd & Hbelow).
  split; [exact Hroot|]. split; [exact Hnd|].
  assert (Hiff : forall x, In x (belowRoot t) <->
     In x (mapSpans (spanMapOf (spans ti))) /\
     exists j, ancestor (spanMapOf (spans ti)) (S j) (SpanID (span x))
               = Some (SpanID (span (rootOf (spans ti))))).
  { intros x. split; [apply Hbelow|].
    intros [Hx [j Hj]]. exact (buildChildren_complete rt _ OK K _ _ _ _ H j x Hx Hj). }
  split; [exact Hiff|].
  intros x Hx Hp Hnone Hin. apply Hiff in Hin. destruct Hin as [_ [j Hj]].
  cbn [ancestor] in Hj. unfold parentKey in Hj at 1.
  rewrite (mapSpans_keyed_lookup _ x K Hx) in Hj.
  destruct j as [|j]; cbn [ancestor] in Hj.
  - injection Hj as Hj. now apply Hp.
  - unfold parentKey in Hj. now rewrite Hnone in Hj.
Qed.

(** ** The root of the span tree *)

Lemma firstParentless_spec l :
  match firstParentless l with
  | Some r => In r l /\ ParentSpanID (span r) = ""
  | None => forall si, In si l -> ParentSpanID (span si) <> ""
  end.
Proof.
  induction l as [|x l IH]; cbn [firstParentless]; [intros si []|].
  destruct (String.eqb_spec (ParentSpanID (span x)) "") as [E|E].
  - split; [now left|exact E].
  - destruct (firstParentless l) as [r|].
    + destruct IH as [I P]. split; [now right|exact P].
    + intros si [<-|H]; [exact E|now apply IH].
Qed.

Lemma findRoot_firstParentless l :
  findRoot l = match firstParentless l with
               | Some r => r
               | None => zeroSpanInfo
               end.
Proof.
  induction l as [|x l IH]; cbn [findRoot firstParentless]; [reflexivity|].
  now destruct (String.eqb (ParentSpanID (span x)) "").
Qed.


Lemma sortedSpans_perm rt ti :
  RuntimeOK rt -> Permutation (sortedSpans rt ti) (spans ti).
Proof. intros OK. apply (sort_perm rt OK). Qed.




(** X10: when exactly one span of a trace has no parent, and it has a span
    id, the root operation that the table of contents names for the trace
    ([getRootSpanName], read before the spans are sorted) is the name of
    the root of the tree that [writeTrace] draws. *)
Theorem toc_root_operation_names_the_tree_root (rt : Runtime) (ti : traceInfo)
    (r0 : spanInfo) :
  RuntimeOK rt ->
  In r0 (spans ti) -> ParentSpanID (span r0) = "" -> SpanID (span r0) <> "" ->
  (forall si, In si (spans ti) -> ParentSpanID (span si) = "" -> si = r0) ->
  rootOf (sortedSpans rt ti) = r0 /\
  getRootSpanName ti = Name (span (rootOf (sortedSpans rt ti))).
Proof.
  intros OK Hin Hp Hid Huniq.
  pose proof (sortedSpans_perm rt ti OK) as P.
  assert (Hfirst : forall l, Permutation l (spans ti) -> firstParentless l = Some r0).
  { intros l Pl. pose proof (firstParentless_spec l) as F.
    destruct (firstParentless l) as [r|].
    - destruct F as [I Pr]. f_equal. apply Huniq; [|exact Pr].
      now apply (Permutation_in _ Pl).
    - exfalso. apply (F r0); [|exact Hp].
      now apply (Permutation_in _ (Permutation_sym Pl)). }
  assert (Hroot : rootOf (sortedSpans rt ti) = r0).
  { unfold rootOf. cbn zeta. rewrite findRoot_firstParentless, (Hfirst _ P).
    destruct (sortedSpans rt ti) as [|s0 rest]; [reflexivity|].
    destruct (String.eqb_spec (SpanID (span r0)) ""); [contradiction|reflexivity]. }
  split; [exact Hroot|]. rewrite Hroot. unfold getRootSpanName.
  now rewrite (Hfirst _ (Permutation_refl _)).
Qed.

(** ** The spans of the report *)

Lemma sumWith_perm {A} (f : A -> Z) l l' :
  Permutation l l' -> sumWith f l = sumWith f l'.
Proof.
  induction 1 as [|x l l' H IH|x y l|l l' l'' H1 IH1 H2 IH2]; cbn [sumWith]; lia.
Qed.

Lemma sumWith_map {A B} (f : B -> Z) (g : A -> B) l :
  sumWith f (map g l) = sumWith (fun x => f (g x)) l.
Proof. induction l as [|x l IH]; cbn [map sumWith]; [reflexivity|now rewrite IH]. Qed.

Lemma sumWith_ext {A} (f g : A -> Z) l :
  (forall x, f x = g x) -> sumWith f l = sumWith g l.
Proof.
  intros H. induction l as [|x l IH]; cbn [sumWith]; [reflexivity|now rewrite H, IH].
Qed.

Lemma len_flat_map {A B} (g : A -> list B) l :
  len (flat_map g l) = sumWith (fun x => len (g x)) l.
Proof.
  induction l as [|x l IH]; cbn [flat_map sumWith]; [reflexivity|].
  now rewrite len_app, IH.
Qed.

Lemma len_map {A B} (g : A -> B) l : len (map g l) = len l.
Proof. unfold len. now rewrite length_map. Qed.

Lemma wrapInt_sumWith_wrapInt {A} (g : A -> Z) l :
  wrapInt (sumWith (fun x => wrapInt (g x)) l) = wrapInt (sumWith g l).
Proof.
  induction l as [|x l IH]; cbn [sumWith]; [reflexivity|].
  rewrite wrapInt_add_l. unfold wrapInt in *.
  now rewrite <- wrap64_add_r, IH, wrap64_add_r.
Qed.

Lemma mapSpanCount_insert_new (m : gmap string traceInfo) k v :
  m !! k = None -> mapSpanCount (<[k := v]> m) = len (spans v) + mapSpanCount m.
Proof.
  intros H. unfold mapSpanCount.
  now rewrite (sumWith_perm _ _ _ (map_to_list_insert m k v H)).
Qed.

Lemma mapSpanCount_insert_old (m : gmap string traceInfo) k v0 v :
  m !! k = Some v0 ->
  mapSpanCount (<[k := v]> m) = mapSpanCount m - len (spans v0) + len (spans v).
Proof.
  intros H. rewrite <- insert_delete_eq.
  rewrite mapSpanCount_insert_new by apply lookup_delete_eq.
  unfold mapSpanCount at 2.
  rewrite <- (sumWith_perm _ _ _ (map_to_list_delete m k v0 H)).
  cbn [sumWith snd]. unfold mapSpanCount. lia.
Qed.

(** One turn of the innermost loop of the grouping adds one span. *)
Lemma mapSpanCount_addSpan m si : mapSpanCount (addSpan m si) = mapSpanCount m + 1.
Proof.
  unfold addSpan. cbn zeta. destruct (m !! TraceID (span si)) as [ti|] eqn:E.
  - rewrite E, (mapSpanCount_insert_old m _ ti _ E). cbn [spans].
    rewrite len_app. unfold len. cbn [List.length]. lia.
  - rewrite lookup_insert_eq, insert_insert_eq, (mapSpanCount_insert_new m _ _ E).
    cbn [spans app]. unfold len. cbn [List.length]. lia.
Qed.

Lemma mapSpanCount_fold l : forall m,
  mapSpanCount (fold_left addSpan l m) = mapSpanCount m + len l.
Proof.
  induction l as [|si l IH]; intros m; cbn [fold_left].
  - unfold len. cbn [List.length]. lia.
  - rewrite IH, mapSpanCount_addSpan. unfold len. cbn [List.length]. lia.
Qed.

Lemma reportSpanCount_grouped rt entries :
  RuntimeOK rt ->
  reportSpanCount (sortTraces rt (groupTraces entries)) = len (allSpanInfos entries).
Proof.
  intros OK. unfold reportSpanCount.
  rewrite (sumWith_perm _ _ _ (sortTraces_perm rt _ OK)), sumWith_map.
  change (sumWith (fun x => len (spans (snd x))) (map_to_list (groupTraces entries)))
    with (mapSpanCount (groupTraces entries)).
  rewrite groupTraces_flat, mapSpanCount_fold.
  unfold mapSpanCount. rewrite map_to_list_empty. cbn [sumWith]. lia.
Qed.

Lemma len_entrySpanInfos e : len (entrySpanInfos e) = spanTotal (traces e).
Proof.
  unfold entrySpanInfos, spanTotal, spansOfResource. rewrite len_flat_map.
  apply sumWith_ext. intros rs. rewrite len_flat_map.
  apply sumWith_ext. intros ss. apply len_map.
Qed.

(** X7: the grouping of [WriteMarkdown] loses no span and makes none: the
    span counts of the traces of the report add up to the number of spans
    of the retained batches.  On a store that the operations made from an
    empty one, the total that [GetStats] returns is that number, as an
    [int]. *)
Theorem report_holds_every_retained_span (rt : Runtime) (c : Config) (ops : list Op) :
  RuntimeOK rt ->
  let s := run (NewTraceStorage c) ops in
  reportSpanCount (orderedTraces rt s) = len (allSpanInfos (s_traces s)) /\
  reportSpanCount (orderedTraces rt s)
  = sumWith (fun e => spanTotal (traces e)) (s_traces s) /\
  st_spans (GetStats s) = wrapInt (reportSpanCount (orderedTraces rt s)).
Proof.
  intros OK s. unfold orderedTraces.
  pose proof (reportSpanCount_grouped rt (s_traces s) OK) as H1.
  assert (H2 : len (allSpanInfos (s_traces s))
               = sumWith (fun e => spanTotal (traces e)) (s_traces s)).
  { unfold allSpanInfos. rewrite len_flat_map. apply sumWith_ext.
    intros e. apply len_entrySpanInfos. }
  split; [exact H1|]. split; [now rewrite H1|].
  assert (Hacc : accounted s).
  { apply run_accounted. split; reflexivity. }
  apply accounted_iff in Hacc. destruct Hacc as [_ Hsp].
  unfold GetStats. cbn [st_spans]. rewrite Hsp, H1, H2.
  rewrite <- (wrapInt_sumWith_wrapInt (fun e => spanTotal (traces e))).
  f_equal. apply sumWith_ext. intros e. unfold spansOfEntry. apply countSpans_total.
Qed.

(** * Further properties of the limits *)

(** ** The count limit in every state *)

Lemma removeOldest_len s :
  s_traces s <> [] -> len (s_traces (removeOldest s)) = len (s_traces s) - 1.
Proof.
  unfold removeOldest. destruct (s_traces s) as [|e rest] eqn:E; [congruence|].
  intros _. cbn [s_traces]. unfold len. cbn [List.length]. lia.
Qed.

Lemma iter_removeOldest_len m s :
  len (s_traces (Nat.iter m removeOldest s)) <= len (s_traces s).
Proof.
  rewrite iter_removeOldest_traces. unfold len. rewrite length_skipn. lia.
Qed.

Lemma AddTraces_len_le s t now N :
  MaxTraces (config s) = N -> 1 <= N -> len (s_traces s) <= N ->
  len (s_traces (AddTraces s t now)) <= N.
Proof.
  intros HN H1 Hle. unfold AddTraces. cbn zeta. cbn [s_traces].
  set (s1 := byteCapStep s (estimateSize t (countSpans t))).
  assert (H1' : len (s_traces s1) <= N).
  { subst s1. destruct (byteCapStep_iter s (estimateSize t (countSpans t))) as [m ->].
    pose proof (iter_removeOldest_len m s). lia. }
  assert (Hc : MaxTraces (config s1) = N).
  { subst s1. now rewrite byteCapStep_config. }
  rewrite len_app. change (len [_]) with 1.
  unfold countCapStep. rewrite Hc.
  destruct (0 <? N) eqn:E0; [|apply Z.ltb_ge in E0; lia]. cbn [andb].
  destruct (N <=? len (s_traces s1)) eqn:E1.
  - apply Z.leb_le in E1. rewrite removeOldest_len; [lia|].
    intros E. rewrite E in E1. change (len []) with 0 in E1. lia.
  - apply Z.leb_gt in E1. lia.
Qed.

Lemma expire_len_le s now :
  len (s_traces (expireOldTracesLocked s now)) <= len (s_traces s).
Proof.
  destruct (Z_lt_le_dec 0 (TraceExpiration (config s))) as [Hpos|Hoff].
  - destruct (expire_spec s now Hpos) as (-> & _).
    pose proof (filter_length_le (fresh (now - TraceExpiration (config s))) (s_traces s)).
    unfold len. lia.
  - rewrite expire_off by exact Hoff. lia.
Qed.

Lemma expire_config s now : config (expireOldTracesLocked s now) = config s.
Proof.
  destruct (Z_lt_le_dec 0 (TraceExpiration (config s))) as [Hpos|Hoff].
  - now destruct (expire_spec s now Hpos) as (_ & -> & _).
  - now rewrite expire_off.
Qed.

Lemma step_config s o : config (step s o) = config s.
Proof.
  destruct o as [t now|now|]; cbn [step GetTraces fst].
  - apply AddTraces_config.
  - apply expire_config.
  - reflexivity.
Qed.

Lemma run_config ops : forall s, config (run s ops) = config s.
Proof.
  unfold run. induction ops as [|o ops IH]; intros s; cbn [fold_left]; [reflexivity|].
  now rewrite IH, step_config.
Qed.

Lemma run_len_le N ops : forall s,
  MaxTraces (config s) = N -> 1 <= N -> len (s_traces s) <= N ->
  len (s_traces (run s ops)) <= N.
Proof.
  unfold run. induction ops as [|o ops IH]; intros s HN H1 Hle; cbn [fold_left];
    [exact Hle|].
  apply IH; [now rewrite step_config|exact H1|].
  destruct o as [t now|now|]; cbn [step GetTraces fst].
  - now apply AddTraces_len_le.
  - pose proof (expire_len_le s now). lia.
  - exact Hle.
Qed.

(** X14: with a count limit of at least 1, the store holds no more
    entries than the limit in any state that a sequence of operations
    reaches from a new store, whatever the memory limit and the expiration
    are; [GetStats] never reports more batches than the limit. *)
Theorem count_limit_holds_in_every_state (c : Config) (ops : list Op) :
  1 <= MaxTraces c ->
  let s := run (NewTraceStorage c) ops in
  len (s_traces s) <= MaxTraces c /\
  st_batches (GetStats s) <= MaxTraces c.
Proof.
  intros H1. cbn zeta.
  assert (H : len (s_traces (run (NewTraceStorage c) ops)) <= MaxTraces c).
  { apply run_len_le; [reflexivity|exact H1|].
    cbn [NewTraceStorage s_traces]. change (len []) with 0. lia. }
  split; exact H.
Qed.

(** ** The memory limit in every state *)

Lemma sumWith_sublist_le {A} (f : A -> Z) l k :
  sublist l k -> List.Forall (fun x => 0 <= f x) k ->
  List.Forall (fun x => 0 <= f x) l /\ sumWith f l <= sumWith f k.
Proof.
  induction 1 as [|x l k H IH|x l k H IH]; intros F.
  - split; [constructor|lia].
  - inversion F; subst. destruct (IH ltac:(assumption)) as [F' L].
    split; [now constructor|cbn [sumWith]; lia].
  - inversion F; subst. destruct (IH ltac:(assumption)) as [F' L].
    split; [exact F'|cbn [sumWith]; lia].
Qed.

(** What the memory limit guarantees of a store: a single entry at most,
    or a total within the limit. *)
Lemma step_memory_limit s o pre :
  0 < MaxMemoryMB (config s) -> accounted s ->
  sublist (s_traces s) pre ->
  List.Forall (fun e => 0 <= sizeBytes e) (pre ++ admittedBy o) ->
  sumWith sizeBytes (pre ++ admittedBy o) <= maxInt64 ->
  len (s_traces s) <= 1 \/ totalSizeBytes s <= maxBytesOf (config s) ->
  len (s_traces (step s o)) <= 1 \/
  totalSizeBytes (step s o) <= maxBytesOf (config (step s o)).
Proof.
  intros Hcap Hacc Hsub Hpos Hfit Hinv. rewrite step_config.
  apply List.Forall_app in Hpos. destruct Hpos as [Hpre Hnew].
  rewrite sumWith_app in Hfit.
  destruct (sumWith_sublist_le sizeBytes _ _ Hsub Hpre) as [Hs Hle].
  pose proof (sumWith_nonneg sizeBytes _ Hs) as H0.
  pose proof (sumWith_nonneg sizeBytes _ Hnew) as H0'.
  destruct o as [t now|now|]; cbn [step GetTraces fst admittedBy] in *.
  - inversion Hnew as [|e l He _]; subst. cbn [entryOf sizeBytes fst snd sumWith] in *.
    destruct (AddTraces_memory_step s t now Hcap Hacc Hs He ltac:(lia)) as [E|E].
    + left. rewrite E. change (len [_]) with 1. lia.
    + now right.
  - pose proof (expire_len_le s now) as Hlen.
    destruct Hinv as [Hinv|Hinv]; [left; lia|right].
    pose proof (expire_accounted s now Hacc) as Hacc'.
    apply accounted_iff in Hacc, Hacc'. destruct Hacc as [Hb _], Hacc' as [Hb' _].
    assert (Hsub' : sublist (s_traces (expireOldTracesLocked s now)) (s_traces s)).
    { destruct (Z_lt_le_dec 0 (TraceExpiration (config s))) as [Hp|Hoff].
      - destruct (expire_spec s now Hp) as (-> & _). apply sublist_list_filter.
      - now rewrite expire_off. }
    destruct (sumWith_sublist_le sizeBytes _ _ Hsub' Hs) as [Hs' Hle'].
    pose proof (sumWith_nonneg sizeBytes _ Hs') as H0''.
    rewrite wrap64_small in Hb, Hb'
      by (unfold inInt64, minInt64, maxInt64 in *; lia).
    lia.
  - exact Hinv.
Qed.

Lemma run_memory_limit ops : forall s pre,
  0 < MaxMemoryMB (config s) -> accounted s ->
  sublist (s_traces s) pre ->
  List.Forall (fun e => 0 <= sizeBytes e) (pre ++ admitted ops) ->
  sumWith sizeBytes (pre ++ admitted ops) <= maxInt64 ->
  len (s_traces s) <= 1 \/ totalSizeBytes s <= maxBytesOf (config s) ->
  len (s_traces (run s ops)) <= 1 \/
  totalSizeBytes (run s ops) <= maxBytesOf (config (run s ops)).
Proof.
  unfold run, admitted. induction ops as [|o ops IH];
    intros s pre Hcap Hacc Hsub Hpos Hfit Hinv; cbn [fold_left flat_map] in *;
    [exact Hinv|].
  rewrite app_assoc in Hpos, Hfit.
  assert (Hpos1 : List.Forall (fun e => 0 <= sizeBytes e) (pre ++ admittedBy o)).
  { apply List.Forall_app in Hpos. now destruct Hpos. }
  assert (Hfit1 : sumWith sizeBytes (pre ++ admittedBy o) <= maxInt64).
  { rewrite sumWith_app in Hfit. apply List.Forall_app in Hpos. destruct Hpos as [_ Hr].
    pose proof (sumWith_nonneg sizeBytes _ Hr). lia. }
  apply (IH (step s o) (pre ++ admittedBy o)).
  - now rewrite step_config.
  - now apply step_accounted.
  - now apply step_sublist.
  - exact Hpos.
  - exact Hfit.
  - now apply (step_memory_limit s o pre).
Qed.

(** X15: with a memory limit configured, and batches whose estimated sizes
    are not negative and add up within an [int64], every state that a
    sequence of operations reaches from a new store holds a total size
    within the limit, or a single entry: only a batch that is alone in the
    store exceeds the limit. *)
Theorem memory_limit_holds_in_every_state (c : Config) (ops : list Op) :
  0 < MaxMemoryMB c ->
  List.Forall (fun e => 0 <= sizeBytes e) (admitted ops) ->
  sumWith sizeBytes (admitted ops) <= maxInt64 ->
  let s := run (NewTraceStorage c) ops in
  len (s_traces s) <= 1 \/ st_memoryBytes (GetStats s) <= maxBytesOf c.
Proof.
  intros Hcap Hpos Hfit. cbn zeta. cbn [GetStats st_memoryBytes].
  pose proof (run_memory_limit ops (NewTraceStorage c) []) as H.
  rewrite run_config in H. apply H.
  - exact Hcap.
  - split; reflexivity.
  - constructor.
  - exact Hpos.
  - exact Hfit.
  - left. cbn [NewTraceStorage s_traces]. change (len []) with 0. lia.
Qed.

(** * Further properties of the timeline *)

Lemma string_length_append (a b : string) :
  String.length (String.append a b) = (String.length a + String.length b)%nat.
Proof.
  induction a as [|c a IH]; [reflexivity|].
  change (S (String.length (String.append a b))
          = S (String.length a + String.length b)).
  now f_equal.
Qed.

Lemma string_length_substring0 (s : string) : forall m,
  (m <= String.length s)%nat -> String.length (substring 0 m s) = m.
Proof.
  induction s as [|c s IH]; intros [|m] H; cbn in *; try reflexivity; try lia.
  rewrite IH; lia.
Qed.

Lemma substring0_append (a b : string) :
  substring 0 (String.length a) (String.append a b) = a.
Proof.
  induction a as [|c a IH]; [destruct b; reflexivity|].
  change (String c (substring 0 (String.length a) (String.append a b)) = String c a).
  now f_equal.
Qed.

Lemma truncateName_length name :
  (String.length (truncateName name) <= 50)%nat /\
  ((String.length name <= 50)%nat -> truncateName name = name) /\
  ((50 < String.length name)%nat ->
   String.length (truncateName name) = 50%nat /\
   substring 0 47 (truncateName name) = substring 0 47 name).
Proof.
  unfold truncateName.
  destruct (50 <? Z.of_nat (String.length name)) eqn:E;
    [apply Z.ltb_lt in E|apply Z.ltb_ge in E].
  - assert (L : String.length (String.append (substring 0 (50 - 3) name) "...") = 50%nat).
    { rewrite string_length_append, string_length_substring0 by lia. reflexivity. }
    split; [lia|]. split; [lia|]. intros _. split; [exact L|].
    change (50 - 3)%nat with 47%nat.
    pose proof (substring0_append (substring 0 47 name) "...") as Hs.
    now rewrite string_length_substring0 in Hs by lia.
  - split; [lia|]. split; [reflexivity|lia].
Qed.

Lemma treeRows_infos t : map fst (treeRows t) = treeInfos t.
Proof.
  induction t as [i kids d IH] using spanTreeNode_forall_ind.
  cbn [treeRows treeInfos map fst]. f_equal.
  induction IH as [|k kids Hk _ IHk]; cbn [flat_map]; [reflexivity|].
  now rewrite map_app, Hk, IHk.
Qed.

Lemma fold_right_and_inv {A} (P : A -> Prop) l :
  fold_right and True (map P l) -> List.Forall P l.
Proof.
  induction l as [|x l IH]; cbn [map fold_right]; intros H; constructor.
  - apply H.
  - apply IH, H.
Qed.

Lemma segmentsOf_snoc flags b :
  segmentsOf (flags ++ [b])
  = String.append (segmentsOf flags) (if b then "   " else "│  ").
Proof. unfold segmentsOf. now rewrite fold_left_app. Qed.

Lemma treeHeight_kid i kids d k :
  In k kids -> (S (treeHeight k) <= treeHeight (Node i kids d))%nat.
Proof.
  intros H. cbn [treeHeight]. apply le_n_S, list_max_ge. now apply in_map.
Qed.

Lemma treeHeight_pos t : (1 <= treeHeight t)%nat.
Proof. destruct t. cbn [treeHeight]. lia. Qed.

(** The lines of a subtree whose root is [level] levels below the root of
    the tree, written under the prefix of its ancestors. *)
Lemma writeSpanTree_rows m t :
  childrenByStart m t ->
  forall (level : nat) flags isLast,
    nodeDepth t = Z.of_nat level ->
    Z.of_nat level + Z.of_nat (treeHeight t) <= maxInt64 + 1 ->
    List.length flags = (level - 1)%nat ->
    Forall2 lineOf (writeSpanTree t (segmentsOf flags) isLast) (treeRows t).
Proof.
  induction t as [i kids d IH] using spanTreeNode_forall_ind.
  intros (_ & _ & Hd & Hc) level flags isLast Hlevel Hfit Hflags.
  apply fold_right_and_inv in Hc. cbn [nodeDepth] in Hlevel. subst d.
  cbn [writeSpanTree treeRows]. constructor.
  - unfold lineOf. cbn [lineName lineDuration lineError linePrefix lineConnector fst snd].
    split; [reflexivity|]. split; [reflexivity|]. split; [reflexivity|]. split.
    + intros H0. assert (level = 0%nat) by lia. subst level.
      destruct flags; [|discriminate]. now split.
    + intros Hn. unfold connectorOf.
      destruct (Z.of_nat level =? 0) eqn:E; [apply Z.eqb_eq in E; lia|].
      split; [destruct isLast; [now left|now right]|].
      exists flags. split; [unfold len; lia|reflexivity].
  - assert (Hpre : exists flags',
              childPrefixOf (Z.of_nat level) (segmentsOf flags) isLast = segmentsOf flags' /\
              List.length flags' = (S level - 1)%nat).
    { unfold childPrefixOf. destruct (0 <? Z.of_nat level) eqn:E;
        [apply Z.ltb_lt in E|apply Z.ltb_ge in E].
      - exists (flags ++ [isLast]). rewrite segmentsOf_snoc, length_app.
        cbn [List.length]. split; [reflexivity|lia].
      - exists flags. split; [reflexivity|lia]. }
    destruct Hpre as (flags' & -> & Hflags').
    assert (Hk : forall k, In k kids ->
              forall last, Forall2 lineOf (writeSpanTree k (segmentsOf flags') last)
                             (treeRows k)).
    { intros k Hin last. rewrite List.Forall_forall in IH, Hd, Hc.
      pose proof (treeHeight_kid i kids (Z.of_nat level) k Hin) as Hh.
      pose proof (treeHeight_pos k) as Hp.
      apply (IH k Hin (Hc k Hin) (S level)); [|lia|exact Hflags'].
      rewrite (Hd k Hin). unfold wrapInt. rewrite wrap64_small; [lia|].
      unfold inInt64, minInt64, maxInt64 in *. lia. }
    clear IH Hd Hc Hfit. induction kids as [|k kids IHk]; [constructor|].
    cbn [flat_map]. apply Forall2_app.
    + apply Hk. now left.
    + apply IHk. intros k' Hin. apply Hk. now right.
Qed.

(** X16: the timeline that [writeSpanTree] writes for a tree that
    [buildSpanTree] returned has one line for every node of the tree, the
    line of a node before the lines of its children.  The root has no
    prefix and no connector; a node at depth [d >= 1] has a connector and a
    prefix of [d - 1] segments; no name is longer than 50 bytes, and a name
    of at most 50 bytes is written whole. *)
Theorem timeline_has_one_line_per_node (rt : Runtime) (fuel : nat) (ti : traceInfo)
    (t : spanTreeNode) :
  RuntimeOK rt -> buildSpanTree rt fuel ti = Some t ->
  Z.of_nat (treeHeight t) <= maxInt64 ->
  let lines := writeSpanTree t "" true in
  Forall2 lineOf lines (treeRows t) /\
  map fst (treeRows t) = treeInfos t /\
  List.length lines = treeSize t /\
  List.Forall (fun line => (String.length (lineName line) <= 50)%nat) lines /\
  (forall si, (String.length (Name (span si)) <= 50)%nat ->
     truncateName (Name (span si)) = Name (span si)).
Proof.
  intros OK H Hfit. cbn zeta. unfold buildSpanTree in H.
  pose proof (buildChildren_childrenByStart rt _ OK _ _ _ _ H) as Hc.
  pose proof (buildChildren_root _ _ _ _ _ _ H) as [_ Hd].
  pose proof (writeSpanTree_rows _ t Hc 0 [] true Hd ltac:(cbn; lia) eq_refl) as HF.
  change (segmentsOf []) with EmptyString in HF.
  split; [exact HF|]. split; [apply treeRows_infos|]. split; [|split].
  - rewrite (Forall2_length _ _ _ HF), treeSize_length, <- treeRows_infos.
    now rewrite length_map.
  - clear -HF. induction HF as [|line row lines rows Hl _ IH]; constructor; [|exact IH].
    destruct Hl as [-> _]. apply truncateName_length.
  - intros si Hs. now apply truncateName_length.
Qed.

(** * The further properties on concrete inputs *)

Lemma last_two_of_three_batches :
  s_traces (fold_left admitBatch threeBatches (NewTraceStorage capTwo))
  = skipn (List.length threeBatches - Z.to_nat (MaxTraces capTwo))
      (map entryOf threeBatches).
Proof.
  apply (count_cap_keeps_the_last_N capTwo threeBatches).
  - cbn. lia.
  - cbn. lia.
Defined.

Lemma timestamp_order_on_addGetAdd :
  StronglySorted Z.le
    (map timestamp (s_traces (run (NewTraceStorage capTwo) addGetAdd))).
Proof.
  apply (retained_in_timestamp_order capTwo addGetAdd).
  cbn [addGetAdd admitted flat_map admittedBy app map timestamp entryOf fst snd].
  repeat constructor; lia.
Defined.

Lemma memory_step_on_one_megabyte :
  s_traces (AddTraces (NewTraceStorage oneMegabyte) bigBatch 7) = [entryOf (bigBatch, 7)] \/
  totalSizeBytes (AddTraces (NewTraceStorage oneMegabyte) bigBatch 7)
  <= maxBytesOf (config (NewTraceStorage oneMegabyte)).
Proof.
  apply (proj1 (A := s_traces (AddTraces (NewTraceStorage oneMegabyte) bigBatch 7)
                     = [entryOf (bigBatch, 7)] \/
                     totalSizeBytes (AddTraces (NewTraceStorage oneMegabyte) bigBatch 7)
                     <= maxBytesOf (config (NewTraceStorage oneMegabyte)))
           (B := totalSizeBytes (AddTraces (NewTraceStorage oneMegabyte) bigBatch 7)
                 = sumWith sizeBytes
                     (s_traces (AddTraces (NewTraceStorage oneMegabyte) bigBatch 7)))).
  apply (memory_limit_exceeded_only_by_lone_batch (NewTraceStorage oneMegabyte) bigBatch 7).
  - cbn. lia.
  - split; reflexivity.
  - constructor.
  - vm_compute. discriminate.
  - vm_compute. discriminate.
Defined.

Lemma snapshots_on_store_at_100 :
  fst (GetTraces (fst (GetTraces storeAt100 105)) 120) = fst (GetTraces storeAt100 120) /\
  (0 < TraceExpiration (config storeAt100) ->
   List.Forall (fun e => 105 - timestamp e < TraceExpiration (config storeAt100))
     (s_traces (fst (GetTraces storeAt100 105)))).
Proof.
  apply (later_snapshot_absorbs_earlier storeAt100 105 120).
  - exact storeAt100_wellTyped.
  - lia.
Defined.

Lemma size_estimate_on_bigBatch :
  countSpans bigBatch = spanTotal bigBatch /\
  estimateSize bigBatch (countSpans bigBatch)
  = 100 + 500 * len bigBatch + 1024 * spanTotal bigBatch /\
  100 <= estimateSize bigBatch (countSpans bigBatch).
Proof.
  apply (size_estimate_is_the_weighted_count bigBatch).
  vm_compute. discriminate.
Defined.

Lemma report_spans_on_addGetAdd :
  reportSpanCount (orderedTraces runtimeFwd (run (NewTraceStorage capTwo) addGetAdd))
  = len (allSpanInfos (s_traces (run (NewTraceStorage capTwo) addGetAdd))) /\
  reportSpanCount (orderedTraces runtimeFwd (run (NewTraceStorage capTwo) addGetAdd))
  = sumWith (fun e => spanTotal (traces e))
      (s_traces (run (NewTraceStorage capTwo) addGetAdd)) /\
  st_spans (GetStats (run (NewTraceStorage capTwo) addGetAdd))
  = wrapInt (reportSpanCount
               (orderedTraces runtimeFwd (run (NewTraceStorage capTwo) addGetAdd))).
Proof.
  exact (report_holds_every_retained_span runtimeFwd capTwo addGetAdd runtimeFwd_ok).
Defined.

Lemma toc_groups_on_tieStore :
  Permutation
    (errorTraces (sortTraces runtimeRev (groupTraces (s_traces tieStore)))
     ++ successTraces (sortTraces runtimeRev (groupTraces (s_traces tieStore))))
    (sortTraces runtimeRev (groupTraces (s_traces tieStore))).
Proof.
  exact (proj1 (proj2 (proj2 (toc_numbers_are_section_numbers runtimeRev
                                (s_traces tieStore) runtimeRev_ok)))).
Defined.

Lemma duration_on_plainTrace :
  getDuration plainTrace
  = wrap64 (snd (earliestLatest plainTrace) - fst (earliestLatest plainTrace)).
Proof.
  exact (proj1 (proj2 (proj2 (proj2 (duration_spans_every_span plainTrace
                                       plainTrace_nonempty))))).
Defined.

Lemma root_name_on_plainTrace :
  rootOf (sortedSpans runtimeRev plainTrace) = spanOf "r" "" 1 /\
  getRootSpanName plainTrace = Name (span (rootOf (sortedSpans runtimeRev plainTrace))).
Proof.
  apply (toc_root_operation_names_the_tree_root runtimeRev plainTrace (spanOf "r" "" 1)).
  - exact runtimeRev_ok.
  - now left.
  - reflexivity.
  - discriminate.
  - intros si H P. cbn [plainTrace spans] in H.
    repeat (destruct H as [<-|H]; [try reflexivity; discriminate P|]). destruct H.
Defined.

Lemma plainTree_built : buildSpanTree runtimeFwd 4 plainTrace = Some plainTree.
Proof. vm_compute. reflexivity. Qed.

Lemma descendants_on_plainTrace :
  nodeInfo plainTree = rootOf (spans plainTrace) /\
  List.NoDup (belowRoot plainTree) /\
  (forall x, In x (belowRoot plainTree) <->
     In x (mapSpans (spanMapOf (spans plainTrace))) /\
     exists j, ancestor (spanMapOf (spans plainTrace)) (S j) (SpanID (span x))
               = Some (SpanID (span (rootOf (spans plainTrace))))) /\
  (forall x, In x (mapSpans (spanMapOf (spans plainTrace))) ->
     ParentSpanID (span x) <> SpanID (span (rootOf (spans plainTrace))) ->
     spanMapOf (spans plainTrace) !! ParentSpanID (span x) = None ->
     ~ In x (belowRoot plainTree)).
Proof.
  exact (tree_holds_exactly_the_descendants_of_the_root runtimeFwd plainTrace plainRank
           4 plainTree runtimeFwd_ok plainTrace_acyclic plainTree_built).
Defined.


Lemma count_limit_on_addGetAdd :
  len (s_traces (run (NewTraceStorage capTwo) addGetAdd)) <= MaxTraces capTwo /\
  st_batches (GetStats (run (NewTraceStorage capTwo) addGetAdd)) <= MaxTraces capTwo.
Proof.
  apply (count_limit_holds_in_every_state capTwo addGetAdd). cbn. lia.
Defined.

Lemma memory_limit_on_addGetAdd :
  len (s_traces (run (NewTraceStorage oneMegabyte) addGetAdd)) <= 1 \/
  st_memoryBytes (GetStats (run (NewTraceStorage oneMegabyte) addGetAdd))
  <= maxBytesOf oneMegabyte.
Proof.
  apply (memory_limit_holds_in_every_state oneMegabyte addGetAdd).
  - cbn. lia.
  - repeat constructor; vm_compute; discriminate.
  - vm_compute. discriminate.
Defined.

(** The timeline of [plainTrace]: the root, its two children, and the
    child of the last of them under a blank segment. *)
Example timeline_of_plainTree :
  map (fun l => (linePrefix l, lineConnector l, lineName l))
    (writeSpanTree plainTree "" true)
  = [("", "", "r"); ("", "├─", "b"); ("", "└─", "c"); ("   ", "└─", "d")]%string.
Proof. reflexivity. Qed.

Lemma timeline_on_plainTree :
  Forall2 lineOf (writeSpanTree plainTree "" true) (treeRows plainTree) /\
  map fst (treeRows plainTree) = treeInfos plainTree /\
  List.length (writeSpanTree plainTree "" true) = treeSize plainTree /\
  List.Forall (fun line => (String.length (lineName line) <= 50)%nat)
    (writeSpanTree plainTree "" true) /\
  (forall si, (String.length (Name (span si)) <= 50)%nat ->
     truncateName (Name (span si)) = Name (span si)).
Proof.
  apply (timeline_has_one_line_per_node runtimeFwd 4 plainTrace plainTree).
  - exact runtimeFwd_ok.
  - exact plainTree_built.
  - vm_compute. discriminate.
Defined.
